(** * Token alignment and dependency metrics of [scripts/syntax_utils.py]

    A shallow embedding of the normalizer ([normalize_token_pass1],
    [normalize_token_pass2]), the greedy windowed aligner
    ([align_aoi_to_spacy_windowed]) and the sentence-local dependency
    metrics ([dep_distance], [dep_depth]), with the properties the
    specification states about them.

    Modelling conventions.
    - A Python [str] is a [string]; each [ascii] is read as the Unicode code
      point of the same number (U+0000 .. U+00FF), and [str.lower],
      [str.strip] and the regex class [\w] are the restrictions of Python's
      to that range.
    - [Optional[int]] is [option nat]; list positions are [nat];
      [max_window] is a Python [int], hence [Z].
    - [while] loops carry explicit fuel and answer [None] when it runs out;
      the theorems show which fuel is always enough.
    - A spaCy document is its head relation on token positions together
      with its list of sentence spans; a token is a position in it. *)

From Stdlib Require Import ZArith Lia Bool Ascii String List Sorted.
From stdpp Require Import base list.

Local Open Scope string_scope.

(* ===================================================================== *)
(** ** Characters *)
(* ===================================================================== *)

Module Char.

Definition code (c : ascii) : N := N_of_ascii c.

Definition between (lo hi : N) (c : ascii) : bool :=
  ((lo <=? code c) && (code c <=? hi))%N.

Definition is_code (n : N) (c : ascii) : bool := (code c =? n)%N.

(** [str.isalpha] on U+0000 .. U+00FF. *)
Definition is_letter (c : ascii) : bool :=
  between 65 90 c || between 97 122 c
  || is_code 170 c || is_code 181 c || is_code 186 c
  || between 192 214 c || between 216 246 c || between 248 255 c.

(** Decimal digits and the other numeric characters ([str.isdecimal],
    [str.isdigit], [str.isnumeric]) on U+0000 .. U+00FF. *)
Definition is_digit (c : ascii) : bool :=
  between 48 57 c || is_code 178 c || is_code 179 c || is_code 185 c || between 188 190 c.

Definition is_underscore (c : ascii) : bool := is_code 95 c.
Definition is_apostrophe (c : ascii) : bool := is_code 39 c.
Definition is_hyphen (c : ascii) : bool := is_code 45 c.

(** The regex class [\w] under [re.UNICODE]. *)
Definition is_word (c : ascii) : bool :=
  is_letter c || is_digit c || is_underscore c.

(** [str.isspace]: the characters [str.strip] removes. *)
Definition is_space (c : ascii) : bool :=
  between 9 13 c || between 28 32 c || is_code 133 c || is_code 160 c.

(** The ASCII punctuation characters ([string.punctuation]). *)
Definition is_punctuation (c : ascii) : bool :=
  between 33 47 c || between 58 64 c || between 91 96 c || between 123 126 c.

(** [str.lower] on one character of U+0000 .. U+00FF. *)
Definition lower (c : ascii) : ascii :=
  if between 65 90 c || between 192 214 c || between 216 222 c
  then ascii_of_N (code c + 32)
  else c.

End Char.

(* ===================================================================== *)
(** ** Strings *)
(* ===================================================================== *)

Module Str.

Fixpoint map (f : ascii -> ascii) (s : string) : string :=
  match s with
  | EmptyString => EmptyString
  | String c s' => String (f c) (map f s')
  end.

Fixpoint forallb (p : ascii -> bool) (s : string) : bool :=
  match s with
  | EmptyString => true
  | String c s' => p c && forallb p s'
  end.

(** [s.lower()] *)
Definition lower (s : string) : string := map Char.lower s.

(** [s.lstrip()] *)
Fixpoint lstrip (s : string) : string :=
  match s with
  | EmptyString => EmptyString
  | String c s' => if Char.is_space c then lstrip s' else s
  end.

(** [s.rstrip()] *)
Fixpoint rstrip (s : string) : string :=
  match s with
  | EmptyString => EmptyString
  | String c s' =>
      let r := rstrip s' in
      if Char.is_space c && (r =? "") then EmptyString else String c r
  end.

(** [s.strip()] *)
Definition strip (s : string) : string := rstrip (lstrip s).

(** [bool(s)]: a string is truthy when it is not empty. *)
Definition truthy (s : string) : bool := negb (s =? "").

(** [pattern.sub("", s)] for a pattern that is one character class [cls],
    with or without a trailing [+]: the matches are the (runs of)
    characters of [cls], and each one is replaced by the empty string. *)
Fixpoint re_sub_empty (cls : ascii -> bool) (s : string) : string :=
  match s with
  | EmptyString => EmptyString
  | String c s' =>
      if cls c then re_sub_empty cls s' else String c (re_sub_empty cls s')
  end.

(** ["".join(l)] *)
Fixpoint join (l : list string) : string :=
  match l with
  | [] => EmptyString
  | s :: l' => s ++ join l'
  end.

End Str.

(* ===================================================================== *)
(** ** Token normalizer *)
(* ===================================================================== *)

(** [_punct_re_pass1 = re.compile(r"[^\w'\-]+", flags=re.UNICODE)] *)
Definition _punct_re_pass1 (c : ascii) : bool :=
  negb (Char.is_word c || Char.is_apostrophe c || Char.is_hyphen c).

(** [_punct_re_pass2 = re.compile(r"['\-]", flags=re.UNICODE)] *)
Definition _punct_re_pass2 (c : ascii) : bool :=
  Char.is_apostrophe c || Char.is_hyphen c.

Definition normalize_token_pass1 (s : string) : string :=
  Str.re_sub_empty _punct_re_pass1 (Str.lower s).

Definition normalize_token_pass2 (s : string) : string :=
  Str.re_sub_empty _punct_re_pass2 (normalize_token_pass1 s).

(* ===================================================================== *)
(** ** Token aligner *)
(* ===================================================================== *)

(** The two variables the [for] loop of the aligner mutates: the mapping
    under construction and the forward cursor [j]. *)
Record align_state := AlignState {
  st_mapping : list (option nat);
  st_j : nat
}.

(** [doc_tokens[j]], read only where [j < N]. *)
Definition tok_at (doc_tokens : list string) (j : nat) : string :=
  nth j doc_tokens "".

(** [l[lo:hi]] for [0 <= lo <= hi]. *)
Definition slice {A} (l : list A) (lo hi : nat) : list A :=
  take (hi - lo) (drop lo l).

(** [range(lo, hi)] for [0 <= lo]. *)
Definition range (lo hi : Z) : list nat :=
  seq (Z.to_nat lo) (Z.to_nat (hi - lo)).

(** The three ways the loop body treats one AOI token. *)
Inductive branch := Punctuation | Skip | General.

(** The [if ... continue] chain at the head of the loop body. *)
Definition branch_of (aoi_tok : string) : branch :=
  let raw := Str.strip aoi_tok in
  let tgt_pass1 := normalize_token_pass1 aoi_tok in
  if (tgt_pass1 =? "") && Str.truthy raw then Punctuation
  else if tgt_pass1 =? "" then Skip
  else General.

(** [while j < N and doc_tokens[j].strip() != raw: j += 1]; the value is
    the cursor on leaving the loop. *)
Fixpoint punct_scan (fuel : nat) (doc_tokens : list string) (raw : string)
    (j : nat) : option nat :=
  match fuel with
  | O => None
  | S fuel' =>
      if (j <? length doc_tokens)%nat
         && negb (Str.strip (tok_at doc_tokens j) =? raw)
      then punct_scan fuel' doc_tokens raw (S j)
      else Some j
  end.

(** Pure-punctuation AOI token: literal match on the stripped texts. *)
Definition punct_branch (fuel : nat) (doc_tokens : list string)
    (st : align_state) (i : nat) (raw : string) : option align_state :=
  match punct_scan fuel doc_tokens raw (st_j st) with
  | None => None
  | Some j =>
      if (j <? length doc_tokens)%nat
         && (Str.strip (tok_at doc_tokens j) =? raw)
      then Some (AlignState (<[i := Some j]> (st_mapping st)) (S j))
      else Some (AlignState (st_mapping st) j)
  end.

(** The two comparisons made for the window [doc_tokens[k:k + w]]. *)
Definition window_matches (doc_tokens : list string) (k w : nat)
    (tgt_pass1 tgt_pass2 : string) : bool :=
  let window_norm_pass1 :=
    Str.join (List.map normalize_token_pass1 (slice doc_tokens k (k + w))) in
  if window_norm_pass1 =? tgt_pass1 then true
  else
    let window_norm_pass2 :=
      Str.join (List.map normalize_token_pass2 (slice doc_tokens k (k + w))) in
    window_norm_pass2 =? tgt_pass2.

(** [for w in range(1, max_window + 1)] at a fixed start [k]: the width of
    the first matching window, if the loop finds one before it ends or
    breaks on [k + w > N]. *)
Fixpoint try_widths (ws : list nat) (doc_tokens : list string) (k : nat)
    (tgt_pass1 tgt_pass2 : string) : option nat :=
  match ws with
  | [] => None
  | w :: ws' =>
      if (length doc_tokens <? k + w)%nat then None
      else if window_matches doc_tokens k w tgt_pass1 tgt_pass2 then Some w
      else try_widths ws' doc_tokens k tgt_pass1 tgt_pass2
  end.

(** [while k < N and not matched]: [Some (Some (k, w))] when the loop ends
    with [matched] set at start [k] and width [w], [Some None] when it
    ends with [k = N] and nothing matched. *)
Fixpoint window_scan (fuel : nat) (doc_tokens : list string) (max_window : Z)
    (tgt_pass1 tgt_pass2 : string) (k : nat) : option (option (nat * nat)) :=
  match fuel with
  | O => None
  | S fuel' =>
      if (k <? length doc_tokens)%nat then
        match try_widths (range 1 (max_window + 1)) doc_tokens k
                tgt_pass1 tgt_pass2 with
        | Some w => Some (Some (k, w))
        | None =>
            window_scan fuel' doc_tokens max_window tgt_pass1 tgt_pass2 (S k)
        end
      else Some None
  end.

(** General case: windowed match under both normalization passes. *)
Definition general_branch (fuel : nat) (doc_tokens : list string)
    (max_window : Z) (st : align_state) (i : nat) (aoi_tok : string)
    : option align_state :=
  let tgt_pass1 := normalize_token_pass1 aoi_tok in
  let tgt_pass2 := normalize_token_pass2 aoi_tok in
  match window_scan fuel doc_tokens max_window tgt_pass1 tgt_pass2 (st_j st) with
  | None => None
  | Some (Some (k, w)) =>
      Some (AlignState (<[i := Some k]> (st_mapping st)) (k + w))
  | Some None =>
      Some (AlignState (st_mapping st)
              (Nat.min (st_j st + 1) (length doc_tokens)))
  end.

(** One iteration of [for i, aoi_tok in enumerate(aoi_tokens)]. *)
Definition align_step (fuel : nat) (doc_tokens : list string) (max_window : Z)
    (st : align_state) (i : nat) (aoi_tok : string) : option align_state :=
  match branch_of aoi_tok with
  | Punctuation => punct_branch fuel doc_tokens st i (Str.strip aoi_tok)
  | Skip => Some st
  | General => general_branch fuel doc_tokens max_window st i aoi_tok
  end.

(** The [for] loop, from index [i] on. *)
Fixpoint align_loop (fuel : nat) (doc_tokens : list string) (max_window : Z)
    (i : nat) (aoi_tokens : list string) (st : align_state)
    : option align_state :=
  match aoi_tokens with
  | [] => Some st
  | aoi_tok :: rest =>
      match align_step fuel doc_tokens max_window st i aoi_tok with
      | None => None
      | Some st' => align_loop fuel doc_tokens max_window (S i) rest st'
      end
  end.

(** The whole function, every [while] loop running on [fuel]. *)
Definition align_fuel (fuel : nat) (aoi_tokens doc_tokens : list string)
    (max_window : Z) : option (list (option nat)) :=
  let mapping := replicate (length aoi_tokens) None in
  match align_loop fuel doc_tokens max_window 0 aoi_tokens
          (AlignState mapping 0) with
  | None => None
  | Some st => Some (st_mapping st)
  end.

(** No [while] loop of a call makes more than [len(doc_tokens)] iterations
    (lemma [align_fuel_enough]), so this fuel never runs out. *)
Definition align_aoi_to_spacy_windowed (aoi_tokens doc_tokens : list string)
    (max_window : Z) : option (list (option nat)) :=
  align_fuel (S (length doc_tokens)) aoi_tokens doc_tokens max_window.

Definition default_max_window : Z := 4.

(* ===================================================================== *)
(** ** Dependency metrics *)
(* ===================================================================== *)

(** A sentence span: the half-open range [start, end) of token positions. *)
Record Span := MkSpan {
  span_start : Z;
  span_end : Z
}.

(** A parsed document: [doc_head d i] is [doc[i].head.i], and [doc_sents d]
    is [list(doc.sents)]. A token is a position [i] of its document, and
    [token.head == token] is [doc_head d i = i]. *)
Record Doc := MkDoc {
  doc_head : Z -> Z;
  doc_sents : list Span
}.

(** [sent.start <= i < sent.end] *)
Definition in_span (sent : Span) (i : Z) : bool :=
  ((span_start sent <=? i) && (i <? span_end sent))%Z.

Definition span_eqb (a b : Span) : bool :=
  ((span_start a =? span_start b) && (span_end a =? span_end b))%Z.

(** [a == b] on values that are a span or [None]. *)
Definition opt_span_eqb (a b : option Span) : bool :=
  match a, b with
  | Some x, Some y => span_eqb x y
  | None, None => true
  | _, _ => false
  end.

(** [bool(sent)]: [None] is false, and a span is true when its length
    [end - start] is not zero. *)
Definition span_truthy (sent : option Span) : bool :=
  match sent with
  | None => false
  | Some s => (span_start s <? span_end s)%Z
  end.

(** The loop of [dep_distance] over [token.doc.sents]: it has no [break],
    so each variable ends as the last span that contains its position. *)
Fixpoint scan_sents (sents : list Span) (ti hi : Z)
    (token_sent head_sent : option Span) : option Span * option Span :=
  match sents with
  | [] => (token_sent, head_sent)
  | sent :: rest =>
      let token_sent := if in_span sent ti then Some sent else token_sent in
      let head_sent := if in_span sent hi then Some sent else head_sent in
      scan_sents rest ti hi token_sent head_sent
  end.

Definition dep_distance (d : Doc) (i : Z) : Z :=
  if (doc_head d i =? i)%Z then 0%Z
  else
    let '(token_sent, head_sent) :=
      scan_sents (doc_sents d) i (doc_head d i) None None in
    if negb (opt_span_eqb token_sent head_sent) then 0%Z
    else Z.abs (i - doc_head d i).

(** The loop of [dep_depth] over [token.doc.sents]: it breaks on the first
    span that contains the position. *)
Fixpoint first_sent (sents : list Span) (i : Z) : option Span :=
  match sents with
  | [] => None
  | sent :: rest => if in_span sent i then Some sent else first_sent rest i
  end.

(** [while current.head != current], from [current] with [depth] steps
    already counted. *)
Fixpoint depth_walk (fuel : nat) (d : Doc) (token_sent : option Span)
    (current depth : Z) : option Z :=
  match fuel with
  | O => None
  | S fuel' =>
      if negb (doc_head d current =? current)%Z then
        let depth := (depth + 1)%Z in
        let current := doc_head d current in
        if span_truthy token_sent
           && negb (match token_sent with
                    | Some s => in_span s current
                    | None => false
                    end)
        then Some depth
        else if (depth >? 50)%Z then Some depth
        else depth_walk fuel' d token_sent current depth
      else Some depth
  end.

Definition dep_depth_fuel (fuel : nat) (d : Doc) (i : Z) : option Z :=
  depth_walk fuel d (first_sent (doc_sents d) i) i 0.

(** The loop body runs at most 51 times (lemma [depth_walk_enough]), so
    this fuel never runs out. *)
Definition dep_depth (d : Doc) (i : Z) : option Z := dep_depth_fuel 51 d i.

(* ===================================================================== *)
(** ** The specification's words *)
(* ===================================================================== *)

Module Spec.

(** Keep the characters that satisfy [p], delete the others. *)
Fixpoint keep (p : ascii -> bool) (s : string) : string :=
  match s with
  | EmptyString => EmptyString
  | String c s' => if p c then String c (keep p s') else keep p s'
  end.

(** "a letter/digit/underscore, an apostrophe, or a hyphen" *)
Definition kept_pass1 (c : ascii) : bool :=
  Char.is_letter c || Char.is_digit c || Char.is_underscore c
  || Char.is_apostrophe c || Char.is_hyphen c.

(** "lowercase the string, then delete every character that is not a
    letter/digit/underscore, an apostrophe, or a hyphen" *)
Definition pass1 (s : string) : string := keep kept_pass1 (Str.lower s).

(** "apply Pass 1, then additionally delete apostrophes and hyphens" *)
Definition pass2 (s : string) : string :=
  keep (fun c => negb (Char.is_apostrophe c || Char.is_hyphen c)) (pass1 s).

(** "a string consisting only of punctuation" *)
Definition punctuation_only (s : string) : bool :=
  Str.forallb Char.is_punctuation s.

(** [c] does not occur in [s]. *)
Definition free_of (p : ascii -> bool) (s : string) : bool :=
  Str.forallb (fun c => negb (p c)) s.

(** "the sentence span containing the token's index", found "by scanning
    the document's span list": the last span of the list that contains
    the position, which is the only one when the spans do not overlap. *)
Definition sent_of (sents : list Span) (i : Z) : option Span :=
  last (List.filter (fun sent => in_span sent i) sents).

(** The depth walk as the specification words it: a step that leaves the
    sentence span stops the walk "without counting that step". *)
Fixpoint depth_walk (fuel : nat) (d : Doc) (token_sent : option Span)
    (current depth : Z) : option Z :=
  match fuel with
  | O => None
  | S fuel' =>
      if (doc_head d current =? current)%Z then Some depth
      else
        let next := doc_head d current in
        if match token_sent with
           | Some s => negb (in_span s next)
           | None => false
           end
        then Some depth
        else
          let depth := (depth + 1)%Z in
          if (depth >? 50)%Z then Some depth
          else depth_walk fuel' d token_sent next depth
  end.

Definition dep_depth (d : Doc) (i : Z) : option Z :=
  depth_walk 51 d (first_sent (doc_sents d) i) i 0.

End Spec.

(** A character is settled when Pass 1 leaves it alone: it is lower case
    already and outside the class Pass 1 deletes. *)
Definition settled (c : ascii) : bool :=
  negb (_punct_re_pass1 c) && Ascii.eqb (Char.lower c) c.

(** The position reached from [i] by following the head [n] times. *)
Definition iter_head (d : Doc) (n : nat) (i : Z) : Z :=
  Nat.iter n (doc_head d) i.

(** [x] when it is a value, [y] otherwise. *)
Definition or_else {A} (x y : option A) : option A :=
  match x with
  | Some _ => x
  | None => y
  end.

(** Matched positions increase with the AOI index. *)
Definition increasing (m : list (option nat)) : Prop :=
  forall i1 i2 p1 p2 : nat,
    (i1 < i2)%nat ->
    m !! i1 = Some (Some p1) -> m !! i2 = Some (Some p2) -> (p1 < p2)%nat.

(** No annotation position is claimed by two AOI tokens. *)
Definition claimed_once (m : list (option nat)) : Prop :=
  forall i1 i2 p : nat,
    m !! i1 = Some (Some p) -> m !! i2 = Some (Some p) -> i1 = i2.

(** The matched positions of a mapping, in AOI order. *)
Definition matched (m : list (option nat)) : list nat := omap id m.

(** What the loop maintains before it treats AOI token [i]: the cursor is
    within the annotation sequence, every match so far belongs to an
    earlier AOI token and lies before the cursor, and the matches
    increase. *)
Definition align_inv (N i : nat) (st : align_state) : Prop :=
  (st_j st <= N)%nat /\
  (forall i' p, st_mapping st !! i' = Some (Some p) ->
                (i' < i)%nat /\ (p < st_j st)%nat) /\
  increasing (st_mapping st).

(** How one iteration may change the state: the cursor never moves back
    nor past the end, and the mapping is either untouched or receives, at
    index [i], a position between the old cursor and the new one. *)
Definition step_effect (N i : nat) (st st' : align_state) : Prop :=
  (st_j st <= st_j st')%nat /\ (st_j st' <= N)%nat /\
  (st_mapping st' = st_mapping st \/
   exists p, (st_j st <= p)%nat /\ (p < st_j st')%nat /\
             st_mapping st' = <[i := Some p]> (st_mapping st)).

(** What entitles AOI token [aoi_tok] to annotation position [p]: a
    literal match of the stripped texts for a pure-punctuation token, a
    matching window that starts at [p] for a general one, nothing for a
    skipped one. *)
Definition justified (doc_tokens : list string) (max_window : Z)
    (aoi_tok : string) (p : nat) : Prop :=
  match branch_of aoi_tok with
  | Punctuation =>
      (p < length doc_tokens)%nat /\
      Str.strip (tok_at doc_tokens p) = Str.strip aoi_tok
  | Skip => False
  | General =>
      exists w : nat,
        (1 <= w)%nat /\ (p + w <= length doc_tokens)%nat /\
        (Z.of_nat w <= max_window)%Z /\
        window_matches doc_tokens p w (normalize_token_pass1 aoi_tok)
          (normalize_token_pass2 aoi_tok) = true
  end.

(** AOI token [aoi_tok], matched at position [p], uses up the [w]
    annotation tokens from [p] on: one token, literally equal, for a
    pure-punctuation token; a matching window of width [w] for a general
    one. *)
Definition consumes (doc_tokens : list string) (max_window : Z)
    (aoi_tok : string) (p w : nat) : Prop :=
  match branch_of aoi_tok with
  | Punctuation =>
      w = 1%nat /\ (p < length doc_tokens)%nat /\
      Str.strip (tok_at doc_tokens p) = Str.strip aoi_tok
  | Skip => False
  | General =>
      (1 <= w)%nat /\ (p + w <= length doc_tokens)%nat /\
      (Z.of_nat w <= max_window)%Z /\
      window_matches doc_tokens p w (normalize_token_pass1 aoi_tok)
        (normalize_token_pass2 aoi_tok) = true
  end.

(** What the loop maintains about the tokens used up, before it treats
    AOI token [i] of [aoi_tokens]: every match so far belongs to an earlier
    AOI token, uses up a stretch of annotation tokens that ends at or
    before the cursor, and every later match starts after that stretch. *)
Definition run_inv (aoi_tokens doc_tokens : list string) (max_window : Z)
    (i : nat) (st : align_state) : Prop :=
  (st_j st <= length doc_tokens)%nat /\
  forall i1 p1,
    st_mapping st !! i1 = Some (Some p1) ->
    (i1 < i)%nat /\
    exists tok w,
      aoi_tokens !! i1 = Some tok /\
      consumes doc_tokens max_window tok p1 w /\
      (p1 + w <= st_j st)%nat /\
      forall i2 p2, (i1 < i2)%nat ->
        st_mapping st !! i2 = Some (Some p2) -> (p1 + w <= p2)%nat.

(* ===================================================================== *)
(** ** Post-processing of the reading-time table
       ([scripts/postprocess_trt.py]) *)
(* ===================================================================== *)

Module Postprocess.

(** A cell of the column [total_reading_time], read as an integer column:
    [None] is a null. *)
Definition cell := option Z.

(** A polars data frame as far as [main] looks at it: the names of its
    columns and its rows, each row with its cell of the column
    [total_reading_time] (when the frame has that column) and the rest of
    its cells, which [main] carries along untouched. *)
Record Row := MkRow {
  total_reading_time : cell;
  other_cells : list string
}.

Record DataFrame := MkDataFrame {
  columns : list string;
  rows : list Row
}.

(** [df.height] *)
Definition height (df : DataFrame) : nat := length (rows df).

(** [pl.col(c) >= n] and [pl.col(c) <= n] on one cell: a comparison with
    a null is a null. *)
Definition ge (c : cell) (n : Z) : option bool :=
  match c with
  | Some v => Some (n <=? v)%Z
  | None => None
  end.

Definition le (c : cell) (n : Z) : option bool :=
  match c with
  | Some v => Some (v <=? n)%Z
  | None => None
  end.

(** [a & b] on nullable booleans. *)
Definition and_ (a b : option bool) : option bool :=
  match a, b with
  | Some false, _ => Some false
  | _, Some false => Some false
  | Some true, Some true => Some true
  | _, _ => None
  end.

(** [(pl.col("total_reading_time") >= 150)
     & (pl.col("total_reading_time") <= 4000)] on one row. *)
Definition predicate (r : Row) : option bool :=
  and_ (ge (total_reading_time r) 150) (le (total_reading_time r) 4000).

(** [df.filter(p)] keeps the rows on which [p] is true; a row on which it
    is false or null is dropped. *)
Definition filter (df : DataFrame) : DataFrame :=
  MkDataFrame (columns df)
    (List.filter (fun r => match predicate r with
                           | Some true => true
                           | _ => false
                           end) (rows df)).

(** What [main] finds at [OUT_PATH]: nothing, a file [pl.read_csv] fails
    on, or a file it reads as a data frame. *)
Inductive file :=
  | Missing
  | Unreadable
  | Csv (df : DataFrame).

(** What a run of [main] does besides returning its exit code: the frame
    it hands to [df.write_csv] (if it gets there) and the row counts it
    reports when the write succeeds. *)
Record effects := MkEffects {
  written : option DataFrame;
  reported : option (nat * nat * nat)
}.

(** [main()], with the file found at [OUT_PATH] and whether
    [df.write_csv] succeeds as inputs. *)
Definition main (f : file) (write_succeeds : bool) : Z * effects :=
  match f with
  | Missing => (0%Z, MkEffects None None)
  | Unreadable => (1%Z, MkEffects None None)
  | Csv df =>
      if negb (existsb (String.eqb "total_reading_time") (columns df))
      then (0%Z, MkEffects None None)
      else
        let before := height df in
        let df := filter df in
        let after := height df in
        if write_succeeds
        then (0%Z, MkEffects (Some df) (Some (before, after, before - after)%nat))
        else (1%Z, MkEffects (Some df) None)
  end.

(** The reading time of a row is a value between 150 and 4000, bounds
    included. *)
Definition in_range (r : Row) : Prop :=
  exists v, total_reading_time r = Some v /\ (150 <= v <= 4000)%Z.

End Postprocess.

(* ===================================================================== *)
(** * Properties of the normalizer *)
(* ===================================================================== *)

Section NormalizerFacts.

Local Ltac by_cases_on_char c :=
  destruct c as [[] [] [] [] [] [] [] []]; vm_compute;
  first [ reflexivity | discriminate | (intros; discriminate) | (intros; reflexivity) ].

Lemma lower_idem (c : ascii) : Char.lower (Char.lower c) = Char.lower c.
Proof. by_cases_on_char c. Qed.

Lemma pass1_class_spec (c : ascii) :
  _punct_re_pass1 c = negb (Spec.kept_pass1 c).
Proof. by_cases_on_char c. Qed.

Lemma punct_class1 (c : ascii) :
  Char.is_punctuation c = true ->
  (Char.is_apostrophe c || Char.is_hyphen c || Char.is_underscore c) = false ->
  _punct_re_pass1 (Char.lower c) = true.
Proof. by_cases_on_char c. Qed.

Lemma punct_class2 (c : ascii) :
  Char.is_punctuation c = true ->
  Char.is_underscore c = false ->
  (_punct_re_pass1 (Char.lower c) || _punct_re_pass2 (Char.lower c)) = true.
Proof. by_cases_on_char c. Qed.

Lemma forallb_re_sub_empty (cls : ascii -> bool) (s : string) :
  Str.forallb (fun c => negb (cls c)) (Str.re_sub_empty cls s) = true.
Proof.
  induction s as [|c s IH]; simpl; [reflexivity|].
  destruct (cls c) eqn:E; simpl; [exact IH|].
  rewrite E; simpl; exact IH.
Qed.

Lemma forallb_re_sub_empty_mono (p cls : ascii -> bool) (s : string) :
  Str.forallb p s = true -> Str.forallb p (Str.re_sub_empty cls s) = true.
Proof.
  induction s as [|c s IH]; simpl; [reflexivity|].
  intros [Hc Hs]%andb_true_iff.
  destruct (cls c); simpl; [auto|]. rewrite Hc; simpl; auto.
Qed.

Lemma forallb_weaken (p q : ascii -> bool) (s : string) :
  (forall c, p c = true -> q c = true) ->
  Str.forallb p s = true -> Str.forallb q s = true.
Proof.
  intros Hpq. induction s as [|c s IH]; simpl; [reflexivity|].
  intros [Hc Hs]%andb_true_iff. rewrite (Hpq _ Hc); simpl; auto.
Qed.

Lemma re_sub_empty_fixed (cls : ascii -> bool) (s : string) :
  Str.forallb (fun c => negb (cls c)) s = true -> Str.re_sub_empty cls s = s.
Proof.
  induction s as [|c s IH]; simpl; [reflexivity|].
  intros [Hc Hs]%andb_true_iff. apply negb_true_iff in Hc. rewrite Hc.
  f_equal; auto.
Qed.

Lemma re_sub_empty_all (cls : ascii -> bool) (s : string) :
  Str.forallb cls s = true -> Str.re_sub_empty cls s = "".
Proof.
  induction s as [|c s IH]; simpl; [reflexivity|].
  intros [Hc Hs]%andb_true_iff. rewrite Hc. auto.
Qed.

Lemma re_sub_empty_keep (cls : ascii -> bool) (s : string) :
  Str.re_sub_empty cls s = Spec.keep (fun c => negb (cls c)) s.
Proof.
  induction s as [|c s IH]; simpl; [reflexivity|].
  destruct (cls c); simpl; congruence.
Qed.

Lemma keep_ext (p q : ascii -> bool) (s : string) :
  (forall c, p c = q c) -> Spec.keep p s = Spec.keep q s.
Proof.
  intros Hpq. induction s as [|c s IH]; simpl; [reflexivity|].
  rewrite Hpq, IH. reflexivity.
Qed.

Lemma forallb_lower (p : ascii -> bool) (s : string) :
  Str.forallb p (Str.lower s) = Str.forallb (fun c => p (Char.lower c)) s.
Proof.
  induction s as [|c s IH]; simpl; [reflexivity|]. rewrite <- IH. reflexivity.
Qed.

Lemma lower_fixed (s : string) :
  Str.forallb (fun c => Ascii.eqb (Char.lower c) c) s = true -> Str.lower s = s.
Proof.
  unfold Str.lower.
  induction s as [|c s IH]; cbn [Str.map Str.forallb]; [reflexivity|].
  intros [Hc Hs]%andb_true_iff. apply Ascii.eqb_eq in Hc.
  rewrite Hc, IH; auto.
Qed.

Lemma pass1_settled (s : string) :
  Str.forallb settled (normalize_token_pass1 s) = true.
Proof.
  unfold normalize_token_pass1, Str.lower.
  induction s as [|c s IH];
    cbn [Str.map Str.re_sub_empty Str.forallb]; [reflexivity|].
  destruct (_punct_re_pass1 (Char.lower c)) eqn:E;
    cbn [Str.forallb]; [exact IH|].
  rewrite IH, andb_true_r. unfold settled.
  rewrite E, lower_idem, Ascii.eqb_refl. reflexivity.
Qed.

Lemma pass1_fixed (s : string) :
  Str.forallb settled s = true -> normalize_token_pass1 s = s.
Proof.
  intros H. unfold normalize_token_pass1.
  rewrite lower_fixed.
  - apply re_sub_empty_fixed. revert H. apply forallb_weaken.
    unfold settled. intros c [? ?]%andb_true_iff. assumption.
  - revert H. apply forallb_weaken.
    unfold settled. intros c [? ?]%andb_true_iff. assumption.
Qed.

Lemma pass2_settled (s : string) :
  Str.forallb settled (normalize_token_pass2 s) = true.
Proof.
  unfold normalize_token_pass2.
  apply forallb_re_sub_empty_mono, pass1_settled.
Qed.

End NormalizerFacts.

Lemma two_passes_delete_all (s : string) :
  Str.forallb (fun c => _punct_re_pass1 c || _punct_re_pass2 c) s = true ->
  Str.re_sub_empty _punct_re_pass2 (Str.re_sub_empty _punct_re_pass1 s) = "".
Proof.
  induction s as [|c s IH]; cbn [Str.forallb Str.re_sub_empty]; [reflexivity|].
  intros [Hc Hs]%andb_true_iff.
  destruct (_punct_re_pass1 c) eqn:E1; [auto|].
  cbn [Str.re_sub_empty]. simpl in Hc. rewrite Hc. auto.
Qed.

(** C7, as the specification states it, fails on a string of hyphens (and
    on one of apostrophes or underscores): such a string consists only of
    punctuation, and Pass 1 returns it unchanged; Pass 2 keeps the
    underscore as well. *)
Lemma pass1_keeps_punctuation_only_hyphen :
  Spec.punctuation_only "-" = true /\
  normalize_token_pass1 "-" = "-" /\
  normalize_token_pass1 "-" <> "" /\
  Spec.punctuation_only "_" = true /\
  normalize_token_pass2 "_" = "_" /\
  normalize_token_pass2 "_" <> "".
Proof. repeat split; try reflexivity; vm_compute; discriminate. Qed.

(** C7 (amended). Pass 1 is "lowercase, then delete every character that
    is not a letter, digit, underscore, apostrophe or hyphen"; Pass 2 is
    Pass 1 followed by the deletion of apostrophes and hyphens. Both are
    total and send the empty string to the empty string. A string that
    consists only of punctuation goes to the empty string under Pass 1
    when it holds no apostrophe, hyphen or underscore, and under Pass 2
    when it holds no underscore. The four examples of the specification
    hold. *)
Theorem normalize_token_passes_spec :
  (forall s, normalize_token_pass1 s = Spec.pass1 s) /\
  (forall s, normalize_token_pass2 s = Spec.pass2 s) /\
  normalize_token_pass1 "" = "" /\
  normalize_token_pass2 "" = "" /\
  (forall s,
     Spec.punctuation_only s = true ->
     Spec.free_of (fun c => Char.is_apostrophe c || Char.is_hyphen c
                            || Char.is_underscore c) s = true ->
     normalize_token_pass1 s = "" /\ normalize_token_pass2 s = "") /\
  (forall s,
     Spec.punctuation_only s = true ->
     Spec.free_of Char.is_underscore s = true ->
     normalize_token_pass2 s = "") /\
  normalize_token_pass1 "won't" = "won't" /\
  normalize_token_pass2 "won't" = "wont" /\
  normalize_token_pass1 "Hello," = "hello" /\
  normalize_token_pass2 "!@#" = "".
Proof.
  assert (H1 : forall s, normalize_token_pass1 s = Spec.pass1 s).
  { intros s. unfold normalize_token_pass1, Spec.pass1.
    rewrite re_sub_empty_keep. apply keep_ext. intros c.
    rewrite pass1_class_spec. apply negb_involutive. }
  assert (H5 : forall s,
     Spec.punctuation_only s = true ->
     Spec.free_of (fun c => Char.is_apostrophe c || Char.is_hyphen c
                            || Char.is_underscore c) s = true ->
     normalize_token_pass1 s = "").
  { intros s Hp Hf. unfold normalize_token_pass1.
    apply re_sub_empty_all. rewrite forallb_lower.
    unfold Spec.punctuation_only, Spec.free_of in *.
    induction s as [|c s IH]; cbn [Str.forallb] in *; [reflexivity|].
    apply andb_true_iff in Hp as [Hc Hp].
    apply andb_true_iff in Hf as [Hd Hf].
    apply negb_true_iff in Hd.
    rewrite (punct_class1 c Hc Hd), IH; auto. }
  split; [exact H1|]. split.
  { intros s. unfold normalize_token_pass2, Spec.pass2.
    rewrite re_sub_empty_keep, H1. reflexivity. }
  split; [reflexivity|]. split; [reflexivity|]. split.
  { intros s Hp Hf. split; [auto|].
    unfold normalize_token_pass2. rewrite (H5 s Hp Hf). reflexivity. }
  split.
  { intros s Hp Hf. unfold normalize_token_pass2, normalize_token_pass1.
    apply two_passes_delete_all. rewrite forallb_lower.
    unfold Spec.punctuation_only, Spec.free_of in *.
    induction s as [|c s IH]; cbn [Str.forallb] in *; [reflexivity|].
    apply andb_true_iff in Hp as [Hc Hp].
    apply andb_true_iff in Hf as [Hd Hf].
    apply negb_true_iff in Hd.
    rewrite (punct_class2 c Hc Hd), IH; auto. }
  repeat split; reflexivity.
Qed.

(** C10. Both passes are idempotent, and Pass 2 absorbs Pass 1. *)
Theorem normalize_token_idempotent (s : string) :
  normalize_token_pass1 (normalize_token_pass1 s) = normalize_token_pass1 s /\
  normalize_token_pass2 (normalize_token_pass2 s) = normalize_token_pass2 s /\
  normalize_token_pass2 (normalize_token_pass1 s) = normalize_token_pass2 s.
Proof.
  assert (H1 : normalize_token_pass1 (normalize_token_pass1 s)
               = normalize_token_pass1 s)
    by apply pass1_fixed, pass1_settled.
  split; [exact H1|]. split.
  - unfold normalize_token_pass2 at 1.
    rewrite (pass1_fixed _ (pass2_settled s)).
    unfold normalize_token_pass2.
    apply re_sub_empty_fixed, forallb_re_sub_empty.
  - unfold normalize_token_pass2. rewrite H1. reflexivity.
Qed.

(* ===================================================================== *)
(** * Properties of the aligner *)
(* ===================================================================== *)

Lemma range_from_1 (max_window : Z) (w : nat) :
  w ∈ range 1 (max_window + 1) <-> 1 <= w /\ (Z.of_nat w <= max_window)%Z.
Proof.
  unfold range. rewrite elem_of_seq.
  replace (max_window + 1 - 1)%Z with max_window by lia.
  change (Z.to_nat 1) with 1. lia.
Qed.

Section AlignerFacts.

Variable doc_tokens : list string.
Let N := length doc_tokens.

(** *** The punctuation scan *)

Lemma punct_scan_spec (raw : string) (fuel j : nat) :
  N - j < fuel ->
  exists j',
    punct_scan fuel doc_tokens raw j = Some j' /\
    j <= j' /\ (j <= N -> j' <= N) /\
    (j' < N -> Str.strip (tok_at doc_tokens j') = raw) /\
    (forall p, j <= p < j' -> Str.strip (tok_at doc_tokens p) <> raw) /\
    (j' < N \/ (j <= N -> j' = N)).
Proof.
  revert j. induction fuel as [|fuel IH]; intros j Hf; [lia|].
  cbn [punct_scan]. fold N.
  destruct (Nat.ltb_spec j N) as [Hlt|Hge]; cbn [andb].
  - destruct (String.eqb_spec (Str.strip (tok_at doc_tokens j)) raw)
      as [Heq|Hne]; cbn [negb].
    + exists j. repeat split; auto; try lia.
    + destruct (IH (S j)) as (j' & -> & H1 & H2 & H3 & H4 & H5); [lia|].
      exists j'. split; [reflexivity|]. split; [lia|]. split; [auto|].
      split; [exact H3|]. split.
      * intros p Hp. destruct (decide (p = j)) as [->|]; [exact Hne|].
        apply H4. lia.
      * destruct H5 as [?|H5]; [left; lia|right; intros; apply H5; lia].
  - exists j. repeat split; auto; try lia.
Qed.

Lemma punct_scan_fuel (raw : string) (fuel fuel' j j' : nat) :
  punct_scan fuel doc_tokens raw j = Some j' -> fuel <= fuel' ->
  punct_scan fuel' doc_tokens raw j = Some j'.
Proof.
  revert fuel' j. induction fuel as [|fuel IH]; intros fuel' j; [discriminate|].
  intros H Hle. destruct fuel' as [|fuel']; [lia|]. cbn [punct_scan] in *.
  destruct (_ && _); [|exact H].
  apply IH; [exact H|lia].
Qed.

(** *** The window loops *)

Lemma try_widths_spec (ws : list nat) (k w : nat) (tgt1 tgt2 : string) :
  try_widths ws doc_tokens k tgt1 tgt2 = Some w ->
  w ∈ ws /\ k + w <= N /\ window_matches doc_tokens k w tgt1 tgt2 = true.
Proof.
  induction ws as [|w0 ws IH]; cbn [try_widths]; [discriminate|]. fold N.
  destruct (Nat.ltb_spec N (k + w0)); [discriminate|].
  destruct (window_matches doc_tokens k w0 tgt1 tgt2) eqn:E.
  - intros [= <-]. split; [left|auto].
  - intros H'. destruct (IH H') as (? & ? & ?). split; [right|]; auto.
Qed.

Lemma window_scan_spec (max_window : Z) (tgt1 tgt2 : string) (fuel k : nat) :
  N - k < fuel ->
  exists r,
    window_scan fuel doc_tokens max_window tgt1 tgt2 k = Some r /\
    match r with
    | Some (k', w) =>
        k <= k' /\ k' < N /\ 1 <= w /\ k' + w <= N /\
        (Z.of_nat w <= max_window)%Z /\
        window_matches doc_tokens k' w tgt1 tgt2 = true
    | None => True
    end.
Proof.
  revert k. induction fuel as [|fuel IH]; intros k Hf; [lia|].
  cbn [window_scan]. fold N.
  destruct (Nat.ltb_spec k N) as [Hlt|Hge]; [|exists None; auto].
  destruct (try_widths _ _ _ _ _) as [w|] eqn:E.
  - apply try_widths_spec in E as (Hw%range_from_1 & ? & ?).
    exists (Some (k, w)). split; [reflexivity|]. repeat split; auto; lia.
  - destruct (IH (S k)) as (r & -> & Hr); [lia|]. exists r. split; [reflexivity|].
    destruct r as [[k' w]|]; [|exact I]. repeat split; try tauto; lia.
Qed.

Lemma window_scan_fuel (max_window : Z) (tgt1 tgt2 : string)
    (fuel fuel' k : nat) r :
  window_scan fuel doc_tokens max_window tgt1 tgt2 k = Some r -> fuel <= fuel' ->
  window_scan fuel' doc_tokens max_window tgt1 tgt2 k = Some r.
Proof.
  revert fuel' k. induction fuel as [|fuel IH]; intros fuel' k; [discriminate|].
  intros H Hle. destruct fuel' as [|fuel']; [lia|]. cbn [window_scan] in *.
  destruct (k <? length doc_tokens)%nat; [|exact H].
  destruct (try_widths _ _ _ _ _); [exact H|]. apply IH; [exact H|lia].
Qed.

(** *** One iteration of the loop *)

Lemma punct_branch_spec (st : align_state) (i : nat) (raw : string)
    (fuel : nat) :
  st_j st <= N -> N - st_j st < fuel ->
  exists st',
    punct_branch fuel doc_tokens st i raw = Some st' /\
    ((exists p,
        st_j st <= p /\ p < N /\ Str.strip (tok_at doc_tokens p) = raw /\
        (forall q, st_j st <= q < p -> Str.strip (tok_at doc_tokens q) <> raw) /\
        st' = AlignState (<[i := Some p]> (st_mapping st)) (S p))
     \/
     ((forall q, st_j st <= q < N -> Str.strip (tok_at doc_tokens q) <> raw) /\
      st' = AlignState (st_mapping st) N)).
Proof.
  intros Hj Hf. unfold punct_branch.
  destruct (punct_scan_spec raw fuel (st_j st) Hf)
    as (j' & -> & H1 & H2 & H3 & H4 & H5). fold N.
  destruct (Nat.ltb_spec j' N) as [Hlt|Hge]; cbn [andb].
  - rewrite (H3 Hlt), String.eqb_refl. eexists. split; [reflexivity|].
    left. exists j'. repeat split; auto.
  - eexists. split; [reflexivity|]. right.
    assert (j' = N) as -> by (destruct H5; lia). split; auto.
Qed.

Lemma general_branch_spec (max_window : Z) (st : align_state) (i : nat)
    (aoi_tok : string) (fuel : nat) :
  N - st_j st < fuel ->
  exists st',
    general_branch fuel doc_tokens max_window st i aoi_tok = Some st' /\
    ((exists k w,
        st_j st <= k /\ k < N /\ 1 <= w /\ k + w <= N /\
        (Z.of_nat w <= max_window)%Z /\
        window_matches doc_tokens k w (normalize_token_pass1 aoi_tok)
          (normalize_token_pass2 aoi_tok) = true /\
        st' = AlignState (<[i := Some k]> (st_mapping st)) (k + w))
     \/
     st' = AlignState (st_mapping st) (Nat.min (st_j st + 1) N)).
Proof.
  intros Hf. unfold general_branch.
  destruct (window_scan_spec max_window (normalize_token_pass1 aoi_tok)
              (normalize_token_pass2 aoi_tok) fuel (st_j st) Hf)
    as (r & -> & Hr).
  destruct r as [[k w]|].
  - eexists. split; [reflexivity|]. left. exists k, w.
    destruct Hr as (? & ? & ? & ? & ? & ?). repeat split; auto.
  - eexists. split; [reflexivity|]. right. reflexivity.
Qed.

Lemma align_step_spec (max_window : Z) (st : align_state) (i : nat)
    (aoi_tok : string) (fuel : nat) :
  st_j st <= N -> N - st_j st < fuel ->
  exists st',
    align_step fuel doc_tokens max_window st i aoi_tok = Some st' /\
    step_effect N i st st'.
Proof.
  intros Hj Hf. unfold align_step, step_effect.
  destruct (branch_of aoi_tok).
  - destruct (punct_branch_spec st i (Str.strip aoi_tok) fuel Hj Hf)
      as (st' & -> & [(p & ? & ? & ? & ? & ->)|(? & ->)]);
      eexists; (split; [reflexivity|]); cbn [st_j st_mapping].
    + split; [lia|]. split; [lia|]. right. exists p. split; [lia|]. split; [lia|auto].
    + split; [lia|]. split; [lia|]. left; auto.
  - exists st. split; [reflexivity|]. split; [lia|]. split; [lia|]. left; auto.
  - destruct (general_branch_spec max_window st i aoi_tok fuel Hf)
      as (st' & -> & [(k & w & ? & ? & ? & ? & ? & ? & ->)| ->]);
      eexists; (split; [reflexivity|]); cbn [st_j st_mapping].
    + split; [lia|]. split; [lia|]. right. exists k. split; [lia|]. split; [lia|auto].
    + split; [lia|]. split; [lia|]. left; auto.
Qed.

Lemma align_step_fuel (max_window : Z) (st st' : align_state) (i : nat)
    (aoi_tok : string) (fuel fuel' : nat) :
  align_step fuel doc_tokens max_window st i aoi_tok = Some st' ->
  fuel <= fuel' ->
  align_step fuel' doc_tokens max_window st i aoi_tok = Some st'.
Proof.
  unfold align_step. intros H Hle. destruct (branch_of aoi_tok); [| exact H |].
  - unfold punct_branch in *.
    destruct (punct_scan fuel _ _ _) as [j'|] eqn:E; [|discriminate].
    rewrite (punct_scan_fuel _ _ _ _ _ E Hle). exact H.
  - unfold general_branch in *.
    destruct (window_scan fuel _ _ _ _ _) as [r|] eqn:E; [|discriminate].
    rewrite (window_scan_fuel _ _ _ _ _ _ _ E Hle). exact H.
Qed.

Lemma step_effect_inv (i : nat) (st st' : align_state) :
  align_inv N i st -> step_effect N i st st' -> align_inv N (S i) st'.
Proof.
  intros (Hj & Hm & Hinc) (H1 & H2 & [Heq|(p & Hp1 & Hp2 & Heq)]);
    unfold align_inv; rewrite Heq.
  - split; [exact H2|]. split; [|exact Hinc].
    intros i' q Hq. destruct (Hm _ _ Hq). lia.
  - split; [exact H2|]. split.
    + intros i' q [(<- & [= <-] & _)|(_ & Hq)]%list_lookup_insert_Some; [lia|].
      destruct (Hm _ _ Hq). lia.
    + intros i1 i2 p1 p2 Hlt
        [(<- & [= <-] & _)|(_ & Hq1)]%list_lookup_insert_Some
        [(<- & [= <-] & _)|(_ & Hq2)]%list_lookup_insert_Some.
      * lia.
      * destruct (Hm _ _ Hq2). lia.
      * destruct (Hm _ _ Hq1). lia.
      * eapply Hinc; eauto.
Qed.

(** *** The whole loop *)

Lemma align_loop_spec (max_window : Z) (fuel : nat) (aoi_tokens : list string) :
  N < fuel ->
  forall (i : nat) (st : align_state),
    align_inv N i st ->
    exists st',
      align_loop fuel doc_tokens max_window i aoi_tokens st = Some st' /\
      align_inv N (i + length aoi_tokens) st' /\
      length (st_mapping st') = length (st_mapping st) /\
      st_j st <= st_j st'.
Proof.
  intros Hf. induction aoi_tokens as [|tok rest IH]; intros i st Hinv.
  - exists st. cbn [align_loop length]. rewrite Nat.add_0_r. auto.
  - cbn [align_loop length].
    destruct (align_step_spec max_window st i tok fuel) as (st1 & -> & Hs);
      [apply Hinv | lia |].
    destruct (IH (S i) st1 (step_effect_inv _ _ _ Hinv Hs))
      as (st' & -> & H1 & H2 & H3).
    exists st'. split; [reflexivity|].
    replace (i + S (length rest)) with (S i + length rest) by lia.
    split; [exact H1|].
    destruct Hs as (? & ? & [Heq|(p & _ & _ & Heq)]);
      rewrite Heq, ?length_insert in H2; split; auto; lia.
Qed.

Lemma align_loop_fuel (max_window : Z) (fuel fuel' : nat)
    (aoi_tokens : list string) (i : nat) (st st' : align_state) :
  align_loop fuel doc_tokens max_window i aoi_tokens st = Some st' ->
  fuel <= fuel' ->
  align_loop fuel' doc_tokens max_window i aoi_tokens st = Some st'.
Proof.
  revert i st. induction aoi_tokens as [|tok rest IH]; intros i st H Hle;
    cbn [align_loop] in *; [exact H|].
  destruct (align_step fuel _ _ _ _ _) as [st1|] eqn:E; [|discriminate].
  rewrite (align_step_fuel _ _ _ _ _ _ _ E Hle). apply IH; auto.
Qed.

Lemma align_inv_init (n : nat) :
  align_inv N 0 (AlignState (replicate n None) 0).
Proof.
  split; [cbn; lia|]. split.
  - intros i' p [? _]%lookup_replicate. discriminate.
  - intros i1 i2 p1 p2 _ [? _]%lookup_replicate. discriminate.
Qed.

End AlignerFacts.

Lemma increasing_claimed_once (m : list (option nat)) :
  increasing m -> claimed_once m.
Proof.
  intros H i1 i2 p H1 H2.
  destruct (Nat.lt_trichotomy i1 i2) as [Hlt|[Heq|Hgt]]; [|exact Heq|].
  - specialize (H _ _ _ _ Hlt H1 H2). lia.
  - specialize (H _ _ _ _ Hgt H2 H1). lia.
Qed.

Lemma increasing_tail (x : option nat) (m : list (option nat)) :
  increasing (x :: m) -> increasing m.
Proof.
  intros H i1 i2 p1 p2 Hlt H1 H2.
  apply (H (S i1) (S i2) p1 p2); [lia|exact H1|exact H2].
Qed.

Lemma increasing_sorted (m : list (option nat)) :
  increasing m -> StronglySorted lt (matched m).
Proof.
  unfold matched. induction m as [|x m IH]; intros H; [constructor|].
  specialize (IH (increasing_tail _ _ H)).
  destruct x as [p|]; cbn; [|exact IH].
  constructor; [exact IH|].
  apply Forall_forall. intros q Hq.
  apply list_elem_of_omap in Hq as (y & Hy & Hyq). cbn in Hyq. subst y.
  apply list_elem_of_lookup in Hy as (i2 & Hi2).
  apply (H 0 (S i2) p q); [lia|reflexivity|exact Hi2].
Qed.

Lemma align_total (aoi_tokens doc_tokens : list string) (max_window : Z) :
  exists st,
    align_loop (S (length doc_tokens)) doc_tokens max_window 0 aoi_tokens
      (AlignState (replicate (length aoi_tokens) None) 0) = Some st /\
    align_inv (length doc_tokens) (length aoi_tokens) st /\
    length (st_mapping st) = length aoi_tokens.
Proof.
  destruct (align_loop_spec doc_tokens max_window (S (length doc_tokens))
              aoi_tokens (Nat.lt_succ_diag_r _) 0 _
              (align_inv_init doc_tokens (length aoi_tokens)))
    as (st & H & Hinv & Hlen & _).
  exists st. split; [exact H|]. split; [exact Hinv|].
  rewrite Hlen. apply length_replicate.
Qed.

Lemma align_loop_empty_doc (max_window : Z) (fuel : nat)
    (aoi_tokens : list string) (i : nat) (m : list (option nat)) :
  align_loop (S fuel) [] max_window i aoi_tokens (AlignState m 0)
  = Some (AlignState m 0).
Proof.
  revert i. induction aoi_tokens as [|tok rest IH]; intros i; [reflexivity|].
  cbn [align_loop]. unfold align_step.
  destruct (branch_of tok); cbn; apply IH.
Qed.

(** C1. The matched positions of the returned mapping, read in AOI order,
    are strictly increasing, so no annotation position is claimed by two
    AOI tokens. *)
Theorem align_matched_strictly_increasing
    (aoi_tokens doc_tokens : list string) (max_window : Z) :
  exists m,
    align_aoi_to_spacy_windowed aoi_tokens doc_tokens max_window = Some m /\
    increasing m /\
    StronglySorted lt (matched m) /\
    claimed_once m.
Proof.
  destruct (align_total aoi_tokens doc_tokens max_window)
    as (st & H & (_ & _ & Hinc) & _).
  exists (st_mapping st).
  unfold align_aoi_to_spacy_windowed, align_fuel. rewrite H.
  split; [reflexivity|]. split; [exact Hinc|].
  split; [apply increasing_sorted|apply increasing_claimed_once]; exact Hinc.
Qed.

(** C6. The returned mapping has one entry per AOI token; against an
    empty annotation sequence it is entirely unmatched; for an empty AOI
    sequence it is empty. *)
Theorem align_one_entry_per_aoi_token :
  (forall aoi_tokens doc_tokens max_window,
     exists m,
       align_aoi_to_spacy_windowed aoi_tokens doc_tokens max_window = Some m /\
       length m = length aoi_tokens) /\
  (forall aoi_tokens max_window,
     align_aoi_to_spacy_windowed aoi_tokens [] max_window
     = Some (replicate (length aoi_tokens) None)) /\
  (forall doc_tokens max_window,
     align_aoi_to_spacy_windowed [] doc_tokens max_window = Some []).
Proof.
  split; [|split].
  - intros aoi_tokens doc_tokens max_window.
    destruct (align_total aoi_tokens doc_tokens max_window)
      as (st & H & _ & Hlen).
    exists (st_mapping st).
    unfold align_aoi_to_spacy_windowed, align_fuel. rewrite H. auto.
  - intros aoi_tokens max_window.
    unfold align_aoi_to_spacy_windowed, align_fuel.
    cbn [length]. rewrite align_loop_empty_doc. reflexivity.
  - reflexivity.
Qed.

(** *** Which branch, and what a match means *)

Lemma branch_of_punctuation (aoi_tok : string) :
  normalize_token_pass1 aoi_tok = "" -> Str.strip aoi_tok <> "" ->
  branch_of aoi_tok = Punctuation.
Proof.
  intros H1 H2. unfold branch_of, Str.truthy. rewrite H1.
  apply String.eqb_neq in H2. rewrite H2. reflexivity.
Qed.

Lemma branch_of_general (aoi_tok : string) :
  branch_of aoi_tok = General -> normalize_token_pass1 aoi_tok <> "".
Proof.
  unfold branch_of.
  destruct (String.eqb_spec (normalize_token_pass1 aoi_tok) "") as [->|Hne];
    [|auto].
  cbn [andb]. destruct (Str.truthy _); discriminate.
Qed.

Lemma window_scan_sound (doc_tokens : list string) (max_window : Z)
    (tgt1 tgt2 : string) (fuel k k' w : nat) :
  window_scan fuel doc_tokens max_window tgt1 tgt2 k = Some (Some (k', w)) ->
  (k <= k')%nat /\ (1 <= w)%nat /\ (k' + w <= length doc_tokens)%nat /\
  (Z.of_nat w <= max_window)%Z /\
  window_matches doc_tokens k' w tgt1 tgt2 = true.
Proof.
  revert k. induction fuel as [|fuel IH]; intros k; [discriminate|].
  cbn [window_scan]. destruct (k <? length doc_tokens)%nat; [|discriminate].
  destruct (try_widths _ _ _ _ _) as [w0|] eqn:E.
  - intros [= <- <-].
    apply try_widths_spec in E as (Hw%range_from_1 & ? & ?).
    repeat split; auto; lia.
  - intros H. destruct (IH _ H) as (? & ?). split; [lia|auto].
Qed.

Lemma align_step_sound (doc_tokens : list string) (max_window : Z)
    (fuel : nat) (st st' : align_state) (i : nat) (aoi_tok : string) :
  align_step fuel doc_tokens max_window st i aoi_tok = Some st' ->
  st_mapping st' = st_mapping st \/
  exists p, justified doc_tokens max_window aoi_tok p /\
            st_mapping st' = <[i := Some p]> (st_mapping st).
Proof.
  unfold align_step, justified. destruct (branch_of aoi_tok).
  - unfold punct_branch.
    destruct (punct_scan _ _ _ _) as [j|]; [|discriminate].
    destruct (Nat.ltb_spec j (length doc_tokens)) as [Hlt|Hge]; cbn [andb].
    + destruct (String.eqb_spec (Str.strip (tok_at doc_tokens j))
                  (Str.strip aoi_tok)) as [Heq|Hne]; intros [= <-]; cbn.
      * right. exists j. auto.
      * left. reflexivity.
    + intros [= <-]. left. reflexivity.
  - intros [= <-]. left. reflexivity.
  - unfold general_branch.
    destruct (window_scan _ _ _ _ _ _) as [[[k w]|]|] eqn:E; [| |discriminate];
      intros [= <-]; cbn; [|left; reflexivity].
    apply window_scan_sound in E as (_ & ? & ? & ? & ?).
    right. exists k. split; [exists w|]; auto.
Qed.

Lemma align_loop_sound (all_tokens doc_tokens : list string) (max_window : Z)
    (fuel : nat) (rest : list string) :
  forall (i : nat) (st st' : align_state),
    (forall k tok, rest !! k = Some tok -> all_tokens !! (i + k)%nat = Some tok) ->
    (forall i' p, st_mapping st !! i' = Some (Some p) ->
       exists tok, all_tokens !! i' = Some tok /\
                   justified doc_tokens max_window tok p) ->
    align_loop fuel doc_tokens max_window i rest st = Some st' ->
    forall i' p, st_mapping st' !! i' = Some (Some p) ->
      exists tok, all_tokens !! i' = Some tok /\
                  justified doc_tokens max_window tok p.
Proof.
  induction rest as [|tok rest IH]; intros i st st' Hall Hst;
    cbn [align_loop].
  - intros [= <-]. exact Hst.
  - destruct (align_step _ _ _ _ _ _) as [st1|] eqn:E; [|discriminate].
    apply IH.
    + intros k tok' Hk. replace (S i + k)%nat with (i + S k)%nat by lia.
      apply Hall. exact Hk.
    + apply align_step_sound in E as [->|(p & Hp & ->)]; [exact Hst|].
      intros i' q [(<- & [= <-] & _)|(_ & Hq)]%list_lookup_insert_Some;
        [|eauto].
      exists tok. split; [|exact Hp].
      rewrite <- (Nat.add_0_r i). apply Hall. reflexivity.
Qed.

(** Every match of the returned mapping is justified for its AOI token. *)
Lemma align_sound (aoi_tokens doc_tokens : list string) (max_window : Z)
    (fuel : nat) (m : list (option nat)) (i p : nat) :
  align_fuel fuel aoi_tokens doc_tokens max_window = Some m ->
  m !! i = Some (Some p) ->
  exists tok, aoi_tokens !! i = Some tok /\
              justified doc_tokens max_window tok p.
Proof.
  unfold align_fuel.
  destruct (align_loop _ _ _ _ _ _) as [st|] eqn:E; [|discriminate].
  intros [= <-]. revert i p.
  eapply (align_loop_sound aoi_tokens); [| |exact E].
  - intros k tok Hk. exact Hk.
  - cbn. intros i' p [? _]%lookup_replicate. discriminate.
Qed.

(** The end-to-end example of the specification, against a tokenization
    that splits the contraction and the two hyphenated words: every AOI
    token is aligned, the final ["."] by the literal branch. *)
Example align_end_to_end :
  align_aoi_to_spacy_windowed
    ["He"; "won't"; "re-enter"; "the"; "well-known"; "room"; "."]
    ["He"; "wo"; "n't"; "re"; "-"; "enter"; "the"; "well"; "-"; "known";
     "room"; "."]
    default_max_window
  = Some [Some 0; Some 1; Some 3; Some 6; Some 7; Some 10; Some 11]%nat /\
  branch_of "." = Punctuation.
Proof. split; reflexivity. Qed.

(** C2 (what the code does). For a punctuation-only AOI token with no
    literal match at or after the cursor, the scan runs on the cursor
    itself: the token stays unmatched and the cursor is left at the end of
    the annotation sequence, not where it was. *)
Theorem punct_miss_moves_cursor_to_end
    (doc_tokens : list string) (max_window : Z) (st : align_state)
    (i : nat) (aoi_tok : string) (fuel : nat) :
  normalize_token_pass1 aoi_tok = "" ->
  Str.strip aoi_tok <> "" ->
  (st_j st <= length doc_tokens)%nat ->
  (length doc_tokens - st_j st < fuel)%nat ->
  (forall q, (st_j st <= q < length doc_tokens)%nat ->
             Str.strip (tok_at doc_tokens q) <> Str.strip aoi_tok) ->
  align_step fuel doc_tokens max_window st i aoi_tok
  = Some (AlignState (st_mapping st) (length doc_tokens)).
Proof.
  intros H1 H2 Hj Hf Hmiss. unfold align_step.
  rewrite (branch_of_punctuation _ H1 H2).
  destruct (punct_branch_spec doc_tokens st i (Str.strip aoi_tok) fuel Hj Hf)
    as (st' & -> & [(p & ? & ? & Heq & _)|(_ & ->)]); [|reflexivity].
  exfalso. apply (Hmiss p); [lia|exact Heq].
Qed.

Lemma punct_miss_moves_cursor_to_end_witness :
  normalize_token_pass1 "!" = "" /\
  Str.strip "!" <> "" /\
  align_step 3 ["hello"; "world"] 4 (AlignState [None; None] 0) 0 "!"
  = Some (AlignState [None; None] 2).
Proof.
  split; [reflexivity|]. split; [discriminate|].
  apply (punct_miss_moves_cursor_to_end ["hello"; "world"] 4
           (AlignState [None; None] 0) 0 "!" 3).
  - reflexivity.
  - discriminate.
  - simpl; lia.
  - simpl; lia.
  - intros [|[|q]] Hq; [discriminate|discriminate|simpl in Hq; lia].
Defined.

(** The same miss seen from outside: after the unmatched ["!"] the token
    ["world"] is not found any more, although it is found when the list
    of AOI tokens starts with it. *)
Example punct_miss_loses_later_tokens :
  align_aoi_to_spacy_windowed ["!"; "world"] ["hello"; "world"] 4
  = Some [None; None] /\
  align_aoi_to_spacy_windowed ["world"] ["hello"; "world"] 4
  = Some [Some 1%nat].
Proof. split; reflexivity. Qed.

(** C8. An AOI token whose Pass-1 form is empty while its stripped text is
    not takes the punctuation branch, whatever the window width; its
    iteration is the literal scan alone, and if the returned mapping
    matches it, then to an annotation token whose stripped text is
    literally its own: no comparison of empty normalized forms decides
    it. *)
Theorem empty_pass1_takes_punctuation_branch (aoi_tok : string) :
  normalize_token_pass1 aoi_tok = "" ->
  Str.strip aoi_tok <> "" ->
  branch_of aoi_tok = Punctuation /\
  (forall fuel doc_tokens max_window st i,
     align_step fuel doc_tokens max_window st i aoi_tok
     = punct_branch fuel doc_tokens st i (Str.strip aoi_tok)) /\
  (forall fuel aoi_tokens doc_tokens max_window m i p,
     align_fuel fuel aoi_tokens doc_tokens max_window = Some m ->
     aoi_tokens !! i = Some aoi_tok ->
     m !! i = Some (Some p) ->
     (p < length doc_tokens)%nat /\
     Str.strip (tok_at doc_tokens p) = Str.strip aoi_tok).
Proof.
  intros H1 H2. pose proof (branch_of_punctuation _ H1 H2) as Hb.
  split; [exact Hb|]. split.
  - intros. unfold align_step. rewrite Hb. reflexivity.
  - intros fuel aoi_tokens doc_tokens max_window m i p Hm Hi Hp.
    destruct (align_sound _ _ _ _ _ _ _ Hm Hp) as (tok & Htok & Hj).
    rewrite Hi in Htok. injection Htok as <-.
    unfold justified in Hj. rewrite Hb in Hj. exact Hj.
Qed.

Lemma empty_pass1_takes_punctuation_branch_witness :
  normalize_token_pass1 "." = "" /\
  Str.strip "." <> "" /\
  branch_of "." = Punctuation.
Proof.
  split; [reflexivity|]. split; [discriminate|].
  apply (empty_pass1_takes_punctuation_branch ".");
    [reflexivity|discriminate].
Defined.

(** Outside the scope of C8: a token whose Pass-1 form is not empty goes
    through the window branch even when its Pass-2 form is empty, and is
    then matched by any window whose Pass-2 concatenation is empty. *)
Example empty_pass2_window_match :
  branch_of "-" = General /\
  normalize_token_pass2 "-" = "" /\
  align_aoi_to_spacy_windowed ["-"] [","; "-"] 4 = Some [Some 0%nat].
Proof. repeat split; reflexivity. Qed.

(* ===================================================================== *)
(** * Properties of the dependency metrics *)
(* ===================================================================== *)

Lemma span_eqb_spec (a b : Span) : reflect (a = b) (span_eqb a b).
Proof.
  destruct a as [a1 a2], b as [b1 b2]. unfold span_eqb. cbn.
  destruct (Z.eqb_spec a1 b1) as [->|H1]; cbn.
  - destruct (Z.eqb_spec a2 b2) as [->|H2]; constructor; congruence.
  - constructor. congruence.
Qed.

Lemma opt_span_eqb_spec (a b : option Span) :
  reflect (a = b) (opt_span_eqb a b).
Proof.
  destruct a as [a|], b as [b|]; cbn; try (constructor; congruence).
  destruct (span_eqb_spec a b); constructor; congruence.
Qed.

Lemma last_cons_or_else {A} (x : A) (l : list A) :
  last (x :: l) = or_else (last l) (Some x).
Proof. destruct l as [|y l]; [reflexivity|]. rewrite last_cons_cons.
  destruct (last (y :: l)) eqn:E; [reflexivity|].
  apply last_None in E. discriminate.
Qed.

Lemma scan_sents_spec (sents : list Span) (ti hi : Z)
    (token_sent head_sent : option Span) :
  scan_sents sents ti hi token_sent head_sent
  = (or_else (Spec.sent_of sents ti) token_sent,
     or_else (Spec.sent_of sents hi) head_sent).
Proof.
  revert token_sent head_sent.
  induction sents as [|sent rest IH]; intros token_sent head_sent;
    [reflexivity|].
  cbn [scan_sents]. rewrite IH. unfold Spec.sent_of. cbn [List.filter].
  f_equal.
  - destruct (in_span sent ti); [|reflexivity].
    rewrite last_cons_or_else. destruct (last _); reflexivity.
  - destruct (in_span sent hi); [|reflexivity].
    rewrite last_cons_or_else. destruct (last _); reflexivity.
Qed.

Lemma sent_of_Some (sents : list Span) (i : Z) (s : Span) :
  Spec.sent_of sents i = Some s -> s ∈ sents /\ in_span s i = true.
Proof.
  unfold Spec.sent_of. intros (l & Hl)%last_Some.
  assert (Hin : List.In s (List.filter (fun sent => in_span sent i) sents)).
  { rewrite Hl. apply in_or_app. right. left. reflexivity. }
  apply filter_In in Hin as [Hin Hs]. split; [|exact Hs].
  apply list_elem_of_In. exact Hin.
Qed.

Lemma sent_of_None (sents : list Span) (i : Z) :
  Spec.sent_of sents i = None <->
  (forall s, s ∈ sents -> in_span s i = false).
Proof.
  unfold Spec.sent_of. rewrite last_None. split.
  - intros Hnil s Hs%list_elem_of_In.
    destruct (in_span s i) eqn:E; [|reflexivity].
    assert (Hin : List.In s (List.filter (fun sent => in_span sent i) sents))
      by (apply filter_In; auto).
    rewrite Hnil in Hin. destruct Hin.
  - intros Hall. induction sents as [|s rest IH]; [reflexivity|].
    cbn [List.filter]. rewrite (Hall s) by left.
    apply IH. intros s' Hs'. apply Hall. right. exact Hs'.
Qed.

(** When no two spans of the document contain the position, [sent_of] is
    the span that contains it. *)
Lemma sent_of_unique (sents : list Span) (i : Z) (s : Span) :
  (forall s1 s2, s1 ∈ sents -> s2 ∈ sents ->
     in_span s1 i = true -> in_span s2 i = true -> s1 = s2) ->
  s ∈ sents -> in_span s i = true -> Spec.sent_of sents i = Some s.
Proof.
  intros Huniq Hs Hi.
  destruct (Spec.sent_of sents i) as [s'|] eqn:E.
  - apply sent_of_Some in E as [Hs' Hi']. f_equal. auto.
  - rewrite sent_of_None in E. rewrite (E s Hs) in Hi. discriminate.
Qed.

(** C5. [dep_distance] is total; it is 0 for a token that is its own
    head, 0 when the span of the token and the span of its head differ,
    and the absolute difference of the two positions otherwise. *)
Theorem dep_distance_cases (d : Doc) (i : Z) :
  (doc_head d i = i -> dep_distance d i = 0%Z) /\
  (doc_head d i <> i ->
   Spec.sent_of (doc_sents d) i <> Spec.sent_of (doc_sents d) (doc_head d i) ->
   dep_distance d i = 0%Z) /\
  (doc_head d i <> i ->
   Spec.sent_of (doc_sents d) i = Spec.sent_of (doc_sents d) (doc_head d i) ->
   dep_distance d i = Z.abs (i - doc_head d i)).
Proof.
  unfold dep_distance. rewrite scan_sents_spec. cbn [or_else].
  assert (Hor : forall x : option Span, or_else x None = x)
    by (intros [?|]; reflexivity).
  rewrite !Hor.
  destruct (Z.eqb_spec (doc_head d i) i) as [Heq|Hne].
  - split; [reflexivity|]. split; intros; contradiction.
  - split; [intros; contradiction|].
    destruct (opt_span_eqb_spec (Spec.sent_of (doc_sents d) i)
                (Spec.sent_of (doc_sents d) (doc_head d i))) as [He|Hd];
      cbn [negb]; split; intros; try reflexivity; contradiction.
Qed.

Example dep_distance_examples :
  dep_distance (MkDoc (fun _ => 2%Z) [MkSpan 0 5; MkSpan 5 9]) 2 = 0%Z /\
  dep_distance (MkDoc (fun _ => 7%Z) [MkSpan 0 5; MkSpan 5 9]) 2 = 0%Z /\
  dep_distance (MkDoc (fun _ => 0%Z) [MkSpan 0 5; MkSpan 5 9]) 3 = 3%Z /\
  dep_distance (MkDoc (fun _ => 4%Z) [MkSpan 0 5; MkSpan 5 9]) 1 = 3%Z.
Proof. repeat split; reflexivity. Qed.

(** *** The depth walk *)

Lemma first_sent_in_span (sents : list Span) (i : Z) (s : Span) :
  first_sent sents i = Some s -> in_span s i = true.
Proof.
  induction sents as [|sent rest IH]; cbn [first_sent]; [discriminate|].
  destruct (in_span sent i) eqn:E; [|exact IH]. intros [= <-]. exact E.
Qed.

Lemma in_span_truthy (s : Span) (i : Z) :
  in_span s i = true -> span_truthy (Some s) = true.
Proof.
  unfold in_span, span_truthy.
  intros [H1%Z.leb_le H2%Z.ltb_lt]%andb_true_iff. apply Z.ltb_lt. lia.
Qed.

Lemma iter_head_shift (d : Doc) (n : nat) (i : Z) :
  iter_head d n (doc_head d i) = iter_head d (S n) i.
Proof.
  unfold iter_head. induction n as [|n IH]; [reflexivity|].
  simpl in *. congruence.
Qed.

(** Enough fuel: from [depth <= 50] the loop body runs at most
    [51 - depth] times, and the result lies between [depth] and 51. *)
Lemma depth_walk_enough (d : Doc) (token_sent : option Span) (fuel : nat) :
  forall current depth,
    (0 <= depth <= 50)%Z -> (Z.to_nat (51 - depth) <= fuel)%nat ->
    exists n, depth_walk fuel d token_sent current depth = Some n /\
              (depth <= n <= 51)%Z.
Proof.
  induction fuel as [|fuel IH]; intros current depth Hd Hf; [lia|].
  cbn [depth_walk].
  destruct (doc_head d current =? current)%Z; cbn [negb];
    [exists depth; split; [reflexivity|lia]|].
  destruct (span_truthy token_sent && _);
    [exists (depth + 1)%Z; split; [reflexivity|lia]|].
  destruct (Z.gtb_spec (depth + 1) 50) as [Hgt|Hle];
    [exists (depth + 1)%Z; split; [reflexivity|lia]|].
  destruct (IH (doc_head d current) (depth + 1)%Z) as (n & Hn & ?); [lia|lia|].
  exists n. split; [exact Hn|lia].
Qed.

Lemma depth_walk_fuel (d : Doc) (token_sent : option Span)
    (fuel fuel' : nat) (current depth n : Z) :
  depth_walk fuel d token_sent current depth = Some n -> (fuel <= fuel')%nat ->
  depth_walk fuel' d token_sent current depth = Some n.
Proof.
  revert fuel' current depth.
  induction fuel as [|fuel IH]; intros fuel' current depth; [discriminate|].
  intros H Hle. destruct fuel' as [|fuel']; [lia|]. cbn [depth_walk] in *.
  destruct (negb _); [|exact H].
  destruct (span_truthy token_sent && _); [exact H|].
  destruct (_ >? 50)%Z; [exact H|]. apply IH; [exact H|lia].
Qed.

(** A walk that stays in the span for [n] steps and leaves it with the
    next one returns [n + 1] more than it started with. *)
Lemma depth_walk_leaves (d : Doc) (s : Span) (n : nat) :
  forall (fuel : nat) (current depth : Z),
    (n < fuel)%nat ->
    (depth + Z.of_nat n <= 50)%Z ->
    span_truthy (Some s) = true ->
    (forall m, (m <= n)%nat ->
       doc_head d (iter_head d m current) <> iter_head d m current) ->
    (forall m, (1 <= m <= n)%nat -> in_span s (iter_head d m current) = true) ->
    in_span s (iter_head d (S n) current) = false ->
    depth_walk fuel d (Some s) current depth = Some (depth + Z.of_nat n + 1)%Z.
Proof.
  induction n as [|n IH]; intros fuel current depth Hf Hd Ht Hroot Hin Hout;
    (destruct fuel as [|fuel]; [lia|]); cbn [depth_walk].
  - pose proof (Hroot 0%nat (Nat.le_refl _)) as H0. cbn in H0.
    apply Z.eqb_neq in H0. rewrite H0. cbn [negb].
    cbn in Hout. rewrite Ht, Hout. cbn. f_equal. lia.
  - pose proof (Hroot 0%nat (Nat.le_0_l _)) as H0. cbn in H0.
    apply Z.eqb_neq in H0. rewrite H0. cbn [negb].
    assert (H1 : in_span s (doc_head d current) = true)
      by (apply (Hin 1%nat); lia).
    rewrite H1, andb_false_r.
    destruct (Z.gtb_spec (depth + 1) 50) as [Hgt|Hle]; [lia|].
    rewrite (IH fuel (doc_head d current) (depth + 1)%Z); [f_equal; lia|lia|lia|exact Ht| | |].
    + intros m Hm. rewrite !iter_head_shift. apply Hroot. lia.
    + intros m Hm. rewrite iter_head_shift. apply Hin. lia.
    + rewrite iter_head_shift. exact Hout.
Qed.

(** C3, as the specification states it, fails: token 0 has the span
    [0, 1) and its head, token 1, lies outside it. The only step of the
    walk leaves the span, no step stays inside, and yet the code returns 1
    where the walk worded by the specification returns 0. *)
Lemma dep_depth_counts_step_out_of_span :
  first_sent [MkSpan 0 1; MkSpan 1 2] 0 = Some (MkSpan 0 1) /\
  in_span (MkSpan 0 1) 1 = false /\
  dep_depth (MkDoc (fun _ => 1%Z) [MkSpan 0 1; MkSpan 1 2]) 0 = Some 1%Z /\
  Spec.dep_depth (MkDoc (fun _ => 1%Z) [MkSpan 0 1; MkSpan 1 2]) 0 = Some 0%Z.
Proof. repeat split; reflexivity. Qed.

(** C3 (amended). When the walk from a token makes [n] head-following
    steps inside the token's sentence span and the next step lands outside
    it, [dep_depth] stops at once, and the step that left the span has
    been counted: the result is [n + 1]. *)
Theorem dep_depth_stops_outside_span (d : Doc) (i : Z) (s : Span) (n : nat) :
  first_sent (doc_sents d) i = Some s ->
  (n <= 50)%nat ->
  (forall m, (m <= n)%nat ->
     doc_head d (iter_head d m i) <> iter_head d m i) ->
  (forall m, (1 <= m <= n)%nat -> in_span s (iter_head d m i) = true) ->
  in_span s (iter_head d (S n) i) = false ->
  dep_depth d i = Some (Z.of_nat n + 1)%Z.
Proof.
  intros Hs Hn Hroot Hin Hout. unfold dep_depth, dep_depth_fuel. rewrite Hs.
  rewrite (depth_walk_leaves d s n 51 i 0); auto; try lia.
  apply (in_span_truthy s i), (first_sent_in_span _ _ _ Hs).
Qed.

Lemma dep_depth_stops_outside_span_witness :
  first_sent [MkSpan 0 3; MkSpan 3 5] 0 = Some (MkSpan 0 3) /\
  in_span (MkSpan 0 3) 3 = false /\
  dep_depth (MkDoc (fun i => (i + 1)%Z) [MkSpan 0 3; MkSpan 3 5]) 0
  = Some 3%Z.
Proof.
  split; [reflexivity|]. split; [reflexivity|].
  apply (dep_depth_stops_outside_span
           (MkDoc (fun i => (i + 1)%Z) [MkSpan 0 3; MkSpan 3 5]) 0
           (MkSpan 0 3) 2).
  - reflexivity.
  - lia.
  - intros m Hm. simpl. lia.
  - intros [|[|[|m]]] Hm; [lia|reflexivity|reflexivity|lia].
  - reflexivity.
Defined.

(** C4, as the specification states it, fails: on two tokens that are
    each other's head the walk is cut when the depth has passed 50, and
    the depth it returns is 51. *)
Lemma dep_depth_cyclic_returns_51 :
  dep_depth (MkDoc (fun i => if (i =? 0)%Z then 1%Z else 0%Z) [MkSpan 0 2]) 0
  = Some 51%Z /\
  (50 < 51)%Z.
Proof. split; [reflexivity|lia]. Qed.

(** C4 (amended). For every token, also with malformed or cyclic head
    data, [dep_depth] returns a value that is at least 0 and at most
    51. *)
Theorem dep_depth_bounds (d : Doc) (i : Z) :
  exists n, dep_depth d i = Some n /\ (0 <= n <= 51)%Z.
Proof.
  unfold dep_depth, dep_depth_fuel.
  apply depth_walk_enough; [lia|]. simpl. lia.
Qed.

(* ===================================================================== *)
(** * Termination *)
(* ===================================================================== *)

Lemma align_step_progress (doc_tokens : list string) (max_window : Z)
    (st : align_state) (i : nat) (aoi_tok : string) (fuel : nat) :
  (st_j st <= length doc_tokens)%nat ->
  (length doc_tokens < fuel)%nat ->
  exists st',
    align_step fuel doc_tokens max_window st i aoi_tok = Some st' /\
    (st_j st <= st_j st')%nat /\ (st_j st' <= length doc_tokens)%nat /\
    match branch_of aoi_tok with
    | Skip => st' = st
    | _ =>
        (exists p, (st_j st <= p)%nat /\ (p < st_j st')%nat /\
                   st_mapping st' = <[i := Some p]> (st_mapping st))
        \/
        (st_mapping st' = st_mapping st /\
         (Nat.min (st_j st + 1) (length doc_tokens) <= st_j st')%nat)
    end.
Proof.
  intros Hj Hf. unfold align_step. destruct (branch_of aoi_tok).
  - destruct (punct_branch_spec doc_tokens st i (Str.strip aoi_tok) fuel Hj)
      as (st' & -> & [(p & ? & ? & _ & _ & ->)|(_ & ->)]); [lia| |];
      eexists; (split; [reflexivity|]); cbn [st_j st_mapping].
    + split; [lia|]. split; [lia|]. left. exists p. split; [lia|]. split; [lia|auto].
    + split; [lia|]. split; [lia|]. right. split; [reflexivity|lia].
  - exists st. split; [reflexivity|]. split; [lia|]. split; [lia|reflexivity].
  - destruct (general_branch_spec doc_tokens max_window st i aoi_tok fuel)
      as (st' & -> & [(k & w & ? & ? & ? & ? & _ & _ & ->)| ->]); [lia| |];
      eexists; (split; [reflexivity|]); cbn [st_j st_mapping].
    + split; [lia|]. split; [lia|]. left. exists k. split; [lia|]. split; [lia|auto].
    + split; [lia|]. split; [lia|]. right. split; [reflexivity|lia].
Qed.

(** C9, as the specification states it, fails in its account of the
    cursor: an AOI token whose stripped text is empty is skipped, so it
    records no match and leaves the cursor where it was, short of
    [min(j + 1, N)]. *)
Lemma skipped_token_leaves_cursor :
  branch_of " " = Skip /\
  align_step 2 ["a"] 4 (AlignState [None] 0) 0 " "
  = Some (AlignState [None] 0) /\
  (0 < Nat.min (0 + 1) (length ["a"]))%nat.
Proof. split; [reflexivity|]. split; [reflexivity|]. simpl. lia. Qed.

(** C9 (amended). Every call of the aligner and of [dep_depth] returns:
    the aligner with any fuel above the length of the annotation
    sequence and with one result for all of them, the depth walk with any
    fuel from 51 on, cyclic heads included. The cursor only moves forward
    and stays within the annotation sequence; an AOI token either gets a
    match that the cursor moves past, or moves the cursor to at least
    [min(j + 1, N)], or, when it is skipped for an empty stripped text,
    leaves the cursor where it is. *)
Theorem align_and_dep_depth_terminate :
  (forall aoi_tokens doc_tokens max_window,
     exists m,
       forall fuel, (length doc_tokens < fuel)%nat ->
         align_fuel fuel aoi_tokens doc_tokens max_window = Some m) /\
  (forall doc_tokens max_window st i aoi_tok fuel,
     (st_j st <= length doc_tokens)%nat ->
     (length doc_tokens < fuel)%nat ->
     exists st',
       align_step fuel doc_tokens max_window st i aoi_tok = Some st' /\
       (st_j st <= st_j st')%nat /\ (st_j st' <= length doc_tokens)%nat /\
       match branch_of aoi_tok with
       | Skip => st' = st
       | _ =>
           (exists p, (st_j st <= p)%nat /\ (p < st_j st')%nat /\
                      st_mapping st' = <[i := Some p]> (st_mapping st))
           \/
           (st_mapping st' = st_mapping st /\
            (Nat.min (st_j st + 1) (length doc_tokens) <= st_j st')%nat)
       end) /\
  (forall d i,
     exists n,
       forall fuel, (51 <= fuel)%nat -> dep_depth_fuel fuel d i = Some n).
Proof.
  split; [|split].
  - intros aoi_tokens doc_tokens max_window.
    destruct (align_total aoi_tokens doc_tokens max_window) as (st & H & _).
    exists (st_mapping st). intros fuel Hf. unfold align_fuel.
    rewrite (align_loop_fuel _ _ _ _ _ _ _ _ H); [reflexivity|lia].
  - intros. apply align_step_progress; assumption.
  - intros d i.
    destruct (depth_walk_enough d (first_sent (doc_sents d) i) 51 i 0)
      as (n & Hn & _); [lia|simpl; lia|].
    exists n. intros fuel Hf. unfold dep_depth_fuel.
    apply (depth_walk_fuel _ _ _ _ _ _ _ Hn Hf).
Qed.

(* ===================================================================== *)
(** * Further properties of the normalizer *)
(* ===================================================================== *)

Ltac char_cases c :=
  destruct c as [[] [] [] [] [] [] [] []]; vm_compute;
  first [ reflexivity | discriminate | (intros; discriminate)
        | (intros; reflexivity) ].

Lemma space_deleted (c : ascii) :
  Char.is_space c = true -> _punct_re_pass1 (Char.lower c) = true.
Proof. char_cases c. Qed.

Lemma kept_lower (c : ascii) :
  Spec.kept_pass1 (Char.lower c) = Spec.kept_pass1 c.
Proof. char_cases c. Qed.

Lemma word_lower (c : ascii) :
  Char.is_word (Char.lower c) = Char.is_word c.
Proof. char_cases c. Qed.

Lemma word_kept_not_class2 (c : ascii) :
  Char.is_word c = negb (_punct_re_pass1 c) && negb (_punct_re_pass2 c).
Proof. char_cases c. Qed.

Lemma str_map_app (f : ascii -> ascii) (s t : string) :
  Str.map f (s ++ t) = Str.map f s ++ Str.map f t.
Proof. induction s as [|c s IH]; simpl; [reflexivity|]. rewrite IH. reflexivity. Qed.

Lemma re_sub_empty_app (cls : ascii -> bool) (s t : string) :
  Str.re_sub_empty cls (s ++ t)
  = Str.re_sub_empty cls s ++ Str.re_sub_empty cls t.
Proof.
  induction s as [|c s IH]; simpl; [reflexivity|].
  destruct (cls c); simpl; rewrite IH; reflexivity.
Qed.

Lemma pass1_app (s t : string) :
  normalize_token_pass1 (s ++ t)
  = normalize_token_pass1 s ++ normalize_token_pass1 t.
Proof.
  unfold normalize_token_pass1, Str.lower.
  rewrite str_map_app. apply re_sub_empty_app.
Qed.



Lemma pass1_cons_space (c : ascii) (s : string) :
  Char.is_space c = true ->
  normalize_token_pass1 (String c s) = normalize_token_pass1 s.
Proof.
  intros Hc. unfold normalize_token_pass1, Str.lower.
  cbn [Str.map Str.re_sub_empty]. rewrite (space_deleted c Hc). reflexivity.
Qed.

Lemma pass1_cons (c : ascii) (s : string) :
  normalize_token_pass1 (String c s)
  = normalize_token_pass1 (String c "") ++ normalize_token_pass1 s.
Proof. apply (pass1_app (String c "") s). Qed.

Lemma pass1_lstrip (s : string) :
  normalize_token_pass1 (Str.lstrip s) = normalize_token_pass1 s.
Proof.
  induction s as [|c s IH]; cbn [Str.lstrip]; [reflexivity|].
  destruct (Char.is_space c) eqn:E; [|reflexivity].
  rewrite IH, (pass1_cons_space c s E). reflexivity.
Qed.

Lemma pass1_rstrip (s : string) :
  normalize_token_pass1 (Str.rstrip s) = normalize_token_pass1 s.
Proof.
  induction s as [|c s IH]; cbn [Str.rstrip]; [reflexivity|].
  destruct (Char.is_space c) eqn:E; cbn [andb].
  - destruct (String.eqb_spec (Str.rstrip s) "") as [Heq|Hne].
    + rewrite (pass1_cons_space c s E), <- IH, Heq. reflexivity.
    + rewrite (pass1_cons c s), (pass1_cons c (Str.rstrip s)), IH.
      reflexivity.
  - rewrite (pass1_cons c s), (pass1_cons c (Str.rstrip s)), IH.
    reflexivity.
Qed.

Lemma pass1_strip (s : string) :
  normalize_token_pass1 (Str.strip s) = normalize_token_pass1 s.
Proof. unfold Str.strip. rewrite pass1_rstrip. apply pass1_lstrip. Qed.

(** X2. Surrounding whitespace does not reach the normalized forms: both
    passes give the same result on a token and on its stripped text, so
    the forms the aligner computes from [aoi_tok] are those of [raw]. *)
Theorem normalize_ignores_strip (s : string) :
  normalize_token_pass1 (Str.strip s) = normalize_token_pass1 s /\
  normalize_token_pass2 (Str.strip s) = normalize_token_pass2 s.
Proof.
  split; [apply pass1_strip|].
  unfold normalize_token_pass2. rewrite pass1_strip. reflexivity.
Qed.

Lemma re_sub_empty_nil_iff (cls : ascii -> bool) (s : string) :
  Str.re_sub_empty cls s = "" <-> Str.forallb cls s = true.
Proof.
  induction s as [|c s IH]; cbn [Str.re_sub_empty Str.forallb]; [tauto|].
  destruct (cls c); cbn [andb]; [exact IH|]. split; discriminate.
Qed.

Lemma forallb_ext (p q : ascii -> bool) (s : string) :
  (forall c, p c = q c) -> Str.forallb p s = Str.forallb q s.
Proof.
  intros H. induction s as [|c s IH]; cbn [Str.forallb]; [reflexivity|].
  rewrite H, IH. reflexivity.
Qed.

Lemma forallb_re_sub_empty_split (p cls : ascii -> bool) (s : string) :
  Str.forallb p (Str.re_sub_empty cls s)
  = Str.forallb (fun c => cls c || p c) s.
Proof.
  induction s as [|c s IH]; cbn [Str.re_sub_empty Str.forallb]; [reflexivity|].
  destruct (cls c); cbn [orb Str.forallb]; rewrite IH; reflexivity.
Qed.

Lemma pass1_empty_iff (s : string) :
  normalize_token_pass1 s = "" <-> Spec.free_of Spec.kept_pass1 s = true.
Proof.
  unfold normalize_token_pass1, Spec.free_of.
  rewrite re_sub_empty_nil_iff, forallb_lower.
  erewrite forallb_ext; [reflexivity|].
  intros c. cbn beta. rewrite pass1_class_spec, kept_lower. reflexivity.
Qed.

(** X3. A token normalizes to the empty string under Pass 1 exactly when
    it holds no letter, digit, underscore, apostrophe or hyphen, and
    under Pass 2 exactly when it holds no letter, digit or underscore. *)
Theorem normalize_empty_iff (s : string) :
  (normalize_token_pass1 s = "" <-> Spec.free_of Spec.kept_pass1 s = true) /\
  (normalize_token_pass2 s = "" <-> Spec.free_of Char.is_word s = true).
Proof.
  split; [apply pass1_empty_iff|].
  unfold normalize_token_pass2, normalize_token_pass1, Spec.free_of.
  - rewrite re_sub_empty_nil_iff, forallb_re_sub_empty_split, forallb_lower.
    erewrite forallb_ext; [reflexivity|].
    intros c. cbn beta. rewrite <- (word_lower c), word_kept_not_class2.
    destruct (_punct_re_pass1 _), (_punct_re_pass2 _); reflexivity.
Qed.

Lemma re_sub_empty_length (cls : ascii -> bool) (s : string) :
  (String.length (Str.re_sub_empty cls s) <= String.length s)%nat.
Proof.
  induction s as [|c s IH]; cbn [Str.re_sub_empty String.length]; [lia|].
  destruct (cls c); cbn [String.length]; lia.
Qed.

Lemma str_map_length (f : ascii -> ascii) (s : string) :
  String.length (Str.map f s) = String.length s.
Proof. induction s as [|c s IH]; simpl; [reflexivity|]. rewrite IH. reflexivity. Qed.

(** X4. Normalizing never lengthens a token, and what Pass 2 returns is
    made of letters, digits and underscores only. *)
Theorem normalize_shrinks (s : string) :
  (String.length (normalize_token_pass2 s)
   <= String.length (normalize_token_pass1 s))%nat /\
  (String.length (normalize_token_pass1 s) <= String.length s)%nat /\
  Str.forallb Char.is_word (normalize_token_pass2 s) = true.
Proof.
  split; [apply re_sub_empty_length|]. split.
  - unfold normalize_token_pass1.
    eapply Nat.le_trans; [apply re_sub_empty_length|].
    unfold Str.lower. rewrite str_map_length. lia.
  - unfold normalize_token_pass2, normalize_token_pass1.
    rewrite forallb_re_sub_empty_split, forallb_re_sub_empty_split.
    induction (Str.lower s) as [|c t IH]; cbn [Str.forallb]; [reflexivity|].
    rewrite IH, andb_true_r, word_kept_not_class2.
    destruct (_punct_re_pass1 c), (_punct_re_pass2 c); reflexivity.
Qed.

(* ===================================================================== *)
(** * Further properties of the aligner *)
(* ===================================================================== *)

(** X5. Which branch an AOI token takes is read off its characters: it is
    skipped exactly when its stripped text is empty, it takes the literal
    punctuation branch exactly when its stripped text is not empty and it
    holds no letter, digit, underscore, apostrophe or hyphen, and it takes
    the window branch exactly when it holds one of these. *)
Theorem branch_of_characters (aoi_tok : string) :
  (branch_of aoi_tok = Skip <-> Str.strip aoi_tok = "") /\
  (branch_of aoi_tok = Punctuation <->
   Str.strip aoi_tok <> "" /\ Spec.free_of Spec.kept_pass1 aoi_tok = true) /\
  (branch_of aoi_tok = General <->
   Spec.free_of Spec.kept_pass1 aoi_tok = false).
Proof.
  pose proof (pass1_empty_iff aoi_tok) as He.
  pose proof (pass1_strip aoi_tok) as Hs.
  unfold branch_of, Str.truthy.
  destruct (String.eqb_spec (normalize_token_pass1 aoi_tok) "") as [H1|H1];
    destruct (String.eqb_spec (Str.strip aoi_tok) "") as [H2|H2];
    cbn [andb negb].
  - apply He in H1. rewrite H1. repeat split; try discriminate; tauto.
  - apply He in H1. rewrite H1. repeat split; try discriminate; tauto.
  - exfalso. apply H1. rewrite <- Hs, H2. reflexivity.
  - assert (Hf : Spec.free_of Spec.kept_pass1 aoi_tok = false).
    { destruct (Spec.free_of Spec.kept_pass1 aoi_tok) eqn:E; [|reflexivity].
      exfalso. apply H1, He. reflexivity. }
    rewrite Hf. repeat split; try discriminate; try tauto.
    intros [_ ?]; discriminate.
Qed.

(** X6. When a punctuation-only AOI token has a literal occurrence at or
    after the cursor, it is mapped to the first one, and the cursor is
    left just past it. *)
Theorem punct_hit_takes_first_occurrence
    (doc_tokens : list string) (max_window : Z) (st : align_state)
    (i : nat) (aoi_tok : string) (fuel p : nat) :
  normalize_token_pass1 aoi_tok = "" ->
  Str.strip aoi_tok <> "" ->
  (st_j st <= p)%nat -> (p < length doc_tokens)%nat ->
  Str.strip (tok_at doc_tokens p) = Str.strip aoi_tok ->
  (forall q, (st_j st <= q < p)%nat ->
             Str.strip (tok_at doc_tokens q) <> Str.strip aoi_tok) ->
  (length doc_tokens - st_j st < fuel)%nat ->
  align_step fuel doc_tokens max_window st i aoi_tok
  = Some (AlignState (<[i := Some p]> (st_mapping st)) (S p)).
Proof.
  intros H1 H2 Hj Hp Heq Hfirst Hf. unfold align_step.
  rewrite (branch_of_punctuation _ H1 H2).
  assert (Hj' : (st_j st <= length doc_tokens)%nat) by lia.
  destruct (punct_branch_spec doc_tokens st i (Str.strip aoi_tok) fuel Hj' Hf)
    as (st' & -> & [(p' & ? & ? & Heq' & Hfirst' & ->)|(Hmiss & _)]).
  - destruct (Nat.lt_trichotomy p p') as [Hlt|[->|Hgt]]; [|reflexivity|].
    + exfalso. apply (Hfirst' p); [lia|exact Heq].
    + exfalso. apply (Hfirst p'); [lia|exact Heq'].
  - exfalso. apply (Hmiss p); [lia|exact Heq].
Qed.

Lemma punct_hit_takes_first_occurrence_witness :
  normalize_token_pass1 "," = "" /\
  Str.strip "," <> "" /\
  align_step 5 ["Hello"; ","; "world"; ","] 4 (AlignState [None; None] 0)
    1 ","
  = Some (AlignState [None; Some 1%nat] 2).
Proof.
  split; [reflexivity|]. split; [discriminate|].
  apply (punct_hit_takes_first_occurrence ["Hello"; ","; "world"; ","] 4
           (AlignState [None; None] 0) 1 "," 5 1).
  - reflexivity.
  - discriminate.
  - simpl; lia.
  - simpl; lia.
  - reflexivity.
  - intros [|q] Hq; [discriminate|simpl in Hq; lia].
  - simpl; lia.
Defined.

Lemma try_widths_seq_min (doc_tokens : list string) (k : nat)
    (tgt1 tgt2 : string) (n : nat) :
  forall a w,
    try_widths (seq a n) doc_tokens k tgt1 tgt2 = Some w ->
    forall w', (a <= w' < w)%nat ->
      window_matches doc_tokens k w' tgt1 tgt2 = false.
Proof.
  induction n as [|n IH]; intros a w; cbn [seq try_widths]; [discriminate|].
  destruct (length doc_tokens <? k + a)%nat; [discriminate|].
  destruct (window_matches doc_tokens k a tgt1 tgt2) eqn:E.
  - intros [= <-] w' Hw'. lia.
  - intros H w' Hw'. destruct (decide (w' = a)) as [->|Hne]; [exact E|].
    apply (IH _ _ H). lia.
Qed.

Lemma try_widths_seq_none (doc_tokens : list string) (k : nat)
    (tgt1 tgt2 : string) (n : nat) :
  forall a,
    try_widths (seq a n) doc_tokens k tgt1 tgt2 = None ->
    forall w', (a <= w' < a + n)%nat -> (k + w' <= length doc_tokens)%nat ->
      window_matches doc_tokens k w' tgt1 tgt2 = false.
Proof.
  induction n as [|n IH]; intros a; cbn [seq try_widths]; [intros; lia|].
  destruct (Nat.ltb_spec (length doc_tokens) (k + a)) as [Hlt|Hge];
    [intros; lia|].
  destruct (window_matches doc_tokens k a tgt1 tgt2) eqn:E; [discriminate|].
  intros H w' Hw' Hfit. destruct (decide (w' = a)) as [->|Hne]; [exact E|].
  apply (IH _ H); lia.
Qed.

Lemma window_scan_min (doc_tokens : list string) (max_window : Z)
    (tgt1 tgt2 : string) (fuel : nat) :
  forall j r,
    window_scan fuel doc_tokens max_window tgt1 tgt2 j = Some r ->
    match r with
    | Some (k, w) =>
        (forall k' w', (j <= k' < k)%nat -> (1 <= w')%nat ->
           (Z.of_nat w' <= max_window)%Z ->
           (k' + w' <= length doc_tokens)%nat ->
           window_matches doc_tokens k' w' tgt1 tgt2 = false) /\
        (forall w', (1 <= w' < w)%nat ->
           window_matches doc_tokens k w' tgt1 tgt2 = false)
    | None =>
        forall k' w', (j <= k')%nat -> (1 <= w')%nat ->
          (Z.of_nat w' <= max_window)%Z ->
          (k' + w' <= length doc_tokens)%nat ->
          window_matches doc_tokens k' w' tgt1 tgt2 = false
    end.
Proof.
  induction fuel as [|fuel IH]; intros j r; [discriminate|].
  cbn [window_scan].
  destruct (Nat.ltb_spec j (length doc_tokens)) as [Hlt|Hge].
  - unfold range. replace (max_window + 1 - 1)%Z with max_window by lia.
    change (Z.to_nat 1) with 1%nat.
    destruct (try_widths _ _ _ _ _) as [w|] eqn:E.
    + intros [= <-]. split; [intros; lia|].
      intros w' Hw'. apply (try_widths_seq_min _ _ _ _ _ _ _ E). lia.
    + intros H. specialize (IH _ _ H).
      assert (Hj : forall w', (1 <= w')%nat -> (Z.of_nat w' <= max_window)%Z ->
                 (j + w' <= length doc_tokens)%nat ->
                 window_matches doc_tokens j w' tgt1 tgt2 = false).
      { intros w' ? ? ?. apply (try_widths_seq_none _ _ _ _ _ _ E); lia. }
      destruct r as [[k w]|].
      * destruct IH as [IH1 IH2]. split; [|exact IH2].
        intros k' w' Hk' ? ? ?.
        destruct (decide (k' = j)) as [->|Hne]; [auto|]. apply IH1; auto; lia.
      * intros k' w' Hk' ? ? ?.
        destruct (decide (k' = j)) as [->|Hne]; [auto|]. apply IH; auto; lia.
  - intros [= <-]. intros; lia.
Qed.

(** X7. The window branch is greedy: when it matches, it does so at the
    earliest start at or after the cursor at which some window of an
    allowed width that fits the sequence matches, with the smallest such
    width, and the cursor moves to the end of that window; when it does
    not match, no such window exists from the cursor on, and the cursor
    moves by one position, or stays at the end. *)
Theorem general_branch_earliest_smallest
    (doc_tokens : list string) (max_window : Z) (st st' : align_state)
    (i : nat) (aoi_tok : string) (fuel : nat) :
  branch_of aoi_tok = General ->
  align_step fuel doc_tokens max_window st i aoi_tok = Some st' ->
  let matches k w :=
    window_matches doc_tokens k w (normalize_token_pass1 aoi_tok)
      (normalize_token_pass2 aoi_tok) in
  (exists k w,
     st' = AlignState (<[i := Some k]> (st_mapping st)) (k + w) /\
     (st_j st <= k)%nat /\ (1 <= w)%nat /\ (Z.of_nat w <= max_window)%Z /\
     (k + w <= length doc_tokens)%nat /\
     matches k w = true /\
     (forall k' w', (st_j st <= k' < k)%nat -> (1 <= w')%nat ->
        (Z.of_nat w' <= max_window)%Z ->
        (k' + w' <= length doc_tokens)%nat -> matches k' w' = false) /\
     (forall w', (1 <= w' < w)%nat -> matches k w' = false))
  \/
  (st' = AlignState (st_mapping st)
           (Nat.min (st_j st + 1) (length doc_tokens)) /\
   forall k' w', (st_j st <= k')%nat -> (1 <= w')%nat ->
     (Z.of_nat w' <= max_window)%Z ->
     (k' + w' <= length doc_tokens)%nat -> matches k' w' = false).
Proof.
  intros Hb. unfold align_step. rewrite Hb. unfold general_branch.
  destruct (window_scan _ _ _ _ _ _) as [r|] eqn:E; [|discriminate].
  pose proof (window_scan_min _ _ _ _ _ _ _ E) as Hmin.
  destruct r as [[k w]|]; intros [= <-]; cbv zeta.
  - left. exists k, w.
    apply window_scan_sound in E as (? & ? & ? & ? & ?).
    destruct Hmin as [Hm1 Hm2]. repeat split; auto.
  - right. split; [reflexivity|exact Hmin].
Qed.

Lemma general_branch_earliest_smallest_witness :
  branch_of "won't" = General /\
  align_step 4 ["He"; "wo"; "n't"] 4 (AlignState [None] 0) 0 "won't"
  = Some (AlignState [Some 1%nat] 3) /\
  window_matches ["He"; "wo"; "n't"] 1 1 "won't" "wont" = false.
Proof.
  split; [reflexivity|]. split; [reflexivity|].
  destruct (general_branch_earliest_smallest ["He"; "wo"; "n't"] 4
              (AlignState [None] 0) (AlignState [Some 1%nat] 3) 0 "won't" 4
              eq_refl eq_refl)
    as [(k & w & Hst & _ & _ & _ & _ & _ & _ & Hw)|[Hst _]].
  - cbn in Hst. assert (k = 1%nat) as -> by congruence.
    assert (w = 2%nat) as -> by (injection Hst; lia).
    apply (Hw 1%nat). lia.
  - discriminate Hst.
Defined.

(** *** Tokens used up by a match *)

Lemma align_step_consumes (doc_tokens : list string) (max_window : Z)
    (st : align_state) (i : nat) (aoi_tok : string) (fuel : nat) :
  (st_j st <= length doc_tokens)%nat ->
  (length doc_tokens - st_j st < fuel)%nat ->
  exists st',
    align_step fuel doc_tokens max_window st i aoi_tok = Some st' /\
    ((st_mapping st' = st_mapping st /\
      (st_j st <= st_j st')%nat /\ (st_j st' <= length doc_tokens)%nat)
     \/
     exists p w,
       (st_j st <= p)%nat /\ consumes doc_tokens max_window aoi_tok p w /\
       st_j st' = (p + w)%nat /\ (p + w <= length doc_tokens)%nat /\
       st_mapping st' = <[i := Some p]> (st_mapping st)).
Proof.
  intros Hj Hf. unfold align_step, consumes.
  destruct (branch_of aoi_tok).
  - destruct (punct_branch_spec doc_tokens st i (Str.strip aoi_tok) fuel Hj Hf)
      as (st' & -> & [(p & ? & ? & ? & _ & ->)|(_ & ->)]);
      eexists; (split; [reflexivity|]); cbn [st_j st_mapping].
    + right. exists p, 1%nat. repeat split; auto; lia.
    + left. repeat split; auto; lia.
  - exists st. split; [reflexivity|]. left. repeat split; auto; lia.
  - destruct (general_branch_spec doc_tokens max_window st i aoi_tok fuel Hf)
      as (st' & -> & [(k & w & ? & ? & ? & ? & ? & ? & ->)| ->]);
      eexists; (split; [reflexivity|]); cbn [st_j st_mapping].
    + right. exists k, w. repeat split; auto; lia.
    + left. repeat split; auto; lia.
Qed.

Lemma run_inv_step (aoi_tokens doc_tokens : list string) (max_window : Z)
    (st : align_state) (i : nat) (aoi_tok : string) (fuel : nat) :
  aoi_tokens !! i = Some aoi_tok ->
  (length doc_tokens < fuel)%nat ->
  run_inv aoi_tokens doc_tokens max_window i st ->
  exists st',
    align_step fuel doc_tokens max_window st i aoi_tok = Some st' /\
    run_inv aoi_tokens doc_tokens max_window (S i) st'.
Proof.
  intros Htok Hf (Hj & Hm).
  destruct (align_step_consumes doc_tokens max_window st i aoi_tok fuel Hj)
    as (st' & Hst & Hs); [lia|].
  exists st'. split; [exact Hst|]. unfold run_inv.
  destruct Hs as [(Heq & Hle & Hn)|(p & w & Hp & Hc & Hj' & Hn & Heq)];
    rewrite Heq.
  - split; [exact Hn|]. intros i1 p1 Hl1.
    destruct (Hm _ _ Hl1) as (? & tok & w & ? & ? & ? & ?).
    split; [lia|]. exists tok, w. repeat split; auto; lia.
  - split; [lia|].
    intros i1 p1 [(<- & [= <-] & _)|(Hne & Hl1)]%list_lookup_insert_Some.
    + split; [lia|]. exists aoi_tok, w. repeat split; auto; [lia|].
      intros i2 p2 Hlt [(-> & _)|(_ & Hl2)]%list_lookup_insert_Some; [lia|].
      destruct (Hm _ _ Hl2) as (? & _). lia.
    + destruct (Hm _ _ Hl1) as (? & tok & w1 & ? & ? & ? & Hlater).
      split; [lia|]. exists tok, w1. repeat split; auto; [lia|].
      intros i2 p2 Hlt [(<- & [= <-] & _)|(_ & Hl2)]%list_lookup_insert_Some;
        [lia|eauto].
Qed.

Lemma run_inv_loop (aoi_tokens doc_tokens : list string) (max_window : Z)
    (fuel : nat) (rest : list string) :
  (length doc_tokens < fuel)%nat ->
  forall (i : nat) (st : align_state),
    (forall k tok, rest !! k = Some tok ->
                   aoi_tokens !! (i + k)%nat = Some tok) ->
    run_inv aoi_tokens doc_tokens max_window i st ->
    exists st',
      align_loop fuel doc_tokens max_window i rest st = Some st' /\
      run_inv aoi_tokens doc_tokens max_window (i + length rest) st'.
Proof.
  intros Hf. induction rest as [|tok rest IH]; intros i st Hall Hinv.
  - exists st. cbn [align_loop length]. rewrite Nat.add_0_r. auto.
  - cbn [align_loop length].
    destruct (run_inv_step aoi_tokens doc_tokens max_window st i tok fuel)
      as (st1 & -> & Hinv1); [|exact Hf|exact Hinv|].
    { rewrite <- (Nat.add_0_r i). apply Hall. reflexivity. }
    destruct (IH (S i) st1) as (st' & -> & Hinv'); [|exact Hinv1|].
    { intros k tok' Hk. replace (S i + k)%nat with (i + S k)%nat by lia.
      apply Hall. exact Hk. }
    exists st'. split; [reflexivity|].
    replace (i + S (length rest))%nat with (S i + length rest)%nat by lia.
    exact Hinv'.
Qed.

Lemma align_run (aoi_tokens doc_tokens : list string) (max_window : Z) :
  exists st,
    align_aoi_to_spacy_windowed aoi_tokens doc_tokens max_window
    = Some (st_mapping st) /\
    length (st_mapping st) = length aoi_tokens /\
    run_inv aoi_tokens doc_tokens max_window (length aoi_tokens) st.
Proof.
  destruct (run_inv_loop aoi_tokens doc_tokens max_window
              (S (length doc_tokens)) aoi_tokens (Nat.lt_succ_diag_r _) 0
              (AlignState (replicate (length aoi_tokens) None) 0))
    as (st & H & Hinv).
  - intros k tok Hk. exact Hk.
  - split; [cbn; lia|]. cbn. intros i1 p1 [? _]%lookup_replicate. discriminate.
  - exists st. unfold align_aoi_to_spacy_windowed, align_fuel.
    destruct (align_total aoi_tokens doc_tokens max_window)
      as (st0 & H0 & _ & Hlen).
    rewrite H in H0. injection H0 as Heq. subst st0.
    rewrite H. split; [reflexivity|]. split; [exact Hlen|exact Hinv].
Qed.

(** X8. Every match of the returned mapping is a genuine one and uses up
    its annotation tokens: the AOI token at that index matches, literally
    for a pure-punctuation token (one token) or through a window of an
    allowed width that fits the sequence, at the recorded position; and
    every later match starts after the tokens so used up, so the matched
    stretches do not overlap. *)
Theorem align_matches_disjoint
    (aoi_tokens doc_tokens : list string) (max_window : Z) :
  exists m,
    align_aoi_to_spacy_windowed aoi_tokens doc_tokens max_window = Some m /\
    forall i1 p1,
      m !! i1 = Some (Some p1) ->
      exists tok w,
        aoi_tokens !! i1 = Some tok /\
        consumes doc_tokens max_window tok p1 w /\
        (p1 + w <= length doc_tokens)%nat /\
        forall i2 p2, (i1 < i2)%nat ->
          m !! i2 = Some (Some p2) -> (p1 + w <= p2)%nat.
Proof.
  destruct (align_run aoi_tokens doc_tokens max_window)
    as (st & H & _ & Hj & Hm).
  exists (st_mapping st). split; [exact H|].
  intros i1 p1 H1. destruct (Hm _ _ H1) as (_ & tok & w & ? & ? & ? & ?).
  exists tok, w. repeat split; auto. lia.
Qed.

(** X9. An AOI token whose stripped text is empty is never matched: its
    entry of the returned mapping is "unmatched". *)
Theorem align_blank_token_unmatched
    (aoi_tokens doc_tokens : list string) (max_window : Z) :
  exists m,
    align_aoi_to_spacy_windowed aoi_tokens doc_tokens max_window = Some m /\
    forall i tok,
      aoi_tokens !! i = Some tok -> Str.strip tok = "" -> m !! i = Some None.
Proof.
  destruct (align_run aoi_tokens doc_tokens max_window)
    as (st & H & Hlen & _ & Hm).
  exists (st_mapping st). split; [exact H|].
  intros i tok Hi Hblank.
  destruct (st_mapping st !! i) as [[p|]|] eqn:E; [|reflexivity|].
  - exfalso. destruct (Hm _ _ E) as (_ & tok' & w & Hi' & Hc & _).
    rewrite Hi in Hi'. injection Hi' as <-.
    unfold consumes, branch_of, Str.truthy in Hc.
    rewrite <- (pass1_strip tok), Hblank in Hc. exact Hc.
  - exfalso. apply lookup_ge_None in E. apply lookup_lt_Some in Hi. lia.
Qed.

(** X10. With a maximum window width below 1 no window is ever tried:
    only pure-punctuation AOI tokens can be matched. *)
Theorem align_no_window_only_punctuation
    (aoi_tokens doc_tokens : list string) (max_window : Z) :
  (max_window <= 0)%Z ->
  exists m,
    align_aoi_to_spacy_windowed aoi_tokens doc_tokens max_window = Some m /\
    forall i tok p,
      aoi_tokens !! i = Some tok -> m !! i = Some (Some p) ->
      branch_of tok = Punctuation.
Proof.
  intros Hmw.
  destruct (align_run aoi_tokens doc_tokens max_window)
    as (st & H & _ & _ & Hm).
  exists (st_mapping st). split; [exact H|].
  intros i tok p Hi E.
  destruct (Hm _ _ E) as (_ & tok' & w & Hi' & Hc & _).
  rewrite Hi in Hi'. injection Hi' as <-.
  unfold consumes in Hc. destruct (branch_of tok); [reflexivity|tauto|lia].
Qed.

Lemma align_no_window_only_punctuation_witness :
  (0 <= 0)%Z /\
  exists m,
    align_aoi_to_spacy_windowed ["Hello"; ","] ["Hello"; ","] 0 = Some m /\
    forall i tok p,
      ["Hello"; ","] !! i = Some tok -> m !! i = Some (Some p) ->
      branch_of tok = Punctuation.
Proof.
  split; [lia|].
  apply (align_no_window_only_punctuation ["Hello"; ","] ["Hello"; ","] 0).
  lia.
Defined.

(** *** A sequence aligned against itself *)

Lemma append_empty (s : string) : s ++ "" = s.
Proof. induction s as [|c s IH]; simpl; [reflexivity|]. rewrite IH. reflexivity. Qed.

Lemma branch_of_skip_blank (aoi_tok : string) :
  branch_of aoi_tok = Skip -> Str.strip aoi_tok = "".
Proof.
  unfold branch_of, Str.truthy.
  destruct (normalize_token_pass1 aoi_tok =? ""); cbn [andb]; [|discriminate].
  destruct (String.eqb_spec (Str.strip aoi_tok) ""); cbn [negb];
    [auto|discriminate].
Qed.

Lemma self_step (doc_tokens : list string) (max_window : Z)
    (m : list (option nat)) (i : nat) (tok : string) (fuel : nat) :
  doc_tokens !! i = Some tok ->
  Str.strip tok <> "" ->
  (1 <= max_window)%Z ->
  align_step (S fuel) doc_tokens max_window (AlignState m i) i tok
  = Some (AlignState (<[i := Some i]> m) (S i)).
Proof.
  intros Hi Hraw Hmw.
  pose proof (lookup_lt_Some _ _ _ Hi) as Hlt.
  pose proof (nth_lookup_Some doc_tokens i "" tok Hi) as Hnth.
  apply Nat.ltb_lt in Hlt.
  unfold align_step. destruct (branch_of tok) eqn:Hb.
  - unfold punct_branch. cbn [punct_scan st_j st_mapping].
    unfold tok_at. rewrite Hlt, Hnth, String.eqb_refl. cbn [andb negb].
    rewrite Hlt, Hnth, String.eqb_refl. reflexivity.
  - exfalso. apply Hraw, branch_of_skip_blank, Hb.
  - unfold general_branch. cbn [window_scan st_j st_mapping]. rewrite Hlt.
    unfold range. replace (max_window + 1 - 1)%Z with max_window by lia.
    change (Z.to_nat 1) with 1%nat.
    destruct (Z.to_nat max_window) as [|n] eqn:En; [lia|].
    cbn [seq try_widths].
    apply Nat.ltb_lt in Hlt.
    destruct (Nat.ltb_spec (length doc_tokens) (i + 1)) as [?|_]; [lia|].
    unfold window_matches, slice.
    replace (i + 1 - i)%nat with 1%nat by lia.
    rewrite (drop_S _ _ _ Hi). cbn [take List.map Str.join].
    rewrite append_empty, String.eqb_refl.
    replace (i + 1)%nat with (S i) by lia. reflexivity.
Qed.

Lemma self_loop (doc_tokens : list string) (max_window : Z) (fuel : nat)
    (rest : list string) :
  (1 <= max_window)%Z ->
  forall (i : nat) (m : list (option nat)),
    (forall k tok, rest !! k = Some tok ->
       doc_tokens !! (i + k)%nat = Some tok /\ Str.strip tok <> "") ->
    (i + length rest <= length m)%nat ->
    exists m',
      align_loop (S fuel) doc_tokens max_window i rest (AlignState m i)
      = Some (AlignState m' (i + length rest)) /\
      length m' = length m /\
      (forall k, (k < i)%nat -> m' !! k = m !! k) /\
      (forall k, (i <= k < i + length rest)%nat -> m' !! k = Some (Some k)).
Proof.
  intros Hmw. induction rest as [|tok rest IH]; intros i m Hall Hlen.
  - exists m. cbn [align_loop length]. rewrite Nat.add_0_r.
    repeat split; auto. intros; lia.
  - cbn [align_loop length] in *.
    destruct (Hall 0%nat tok eq_refl) as [Hi Hraw]. rewrite Nat.add_0_r in Hi.
    rewrite (self_step _ _ _ _ _ _ Hi Hraw Hmw).
    destruct (IH (S i) (<[i := Some i]> m)) as (m' & -> & Hl & Hlow & Hhigh).
    { intros k tok' Hk. replace (S i + k)%nat with (i + S k)%nat by lia.
      apply Hall. exact Hk. }
    { rewrite length_insert. lia. }
    exists m'. replace (S i + length rest)%nat with (i + S (length rest))%nat by lia.
    split; [reflexivity|]. split; [rewrite Hl; apply length_insert|]. split.
    + intros k Hk. rewrite Hlow by lia. apply list_lookup_insert_ne. lia.
    + intros k Hk. destruct (decide (k = i)) as [->|Hne].
      * rewrite Hlow by lia. apply list_lookup_insert_eq. lia.
      * apply Hhigh. lia.
Qed.

(** X11. A window width of at least 1 aligns a sequence against itself
    position by position, provided no token is blank (empty once
    stripped): AOI token [i] is mapped to annotation token [i]. *)
Theorem align_self_identity (tokens : list string) (max_window : Z) :
  (1 <= max_window)%Z ->
  (forall tok, tok ∈ tokens -> Str.strip tok <> "") ->
  align_aoi_to_spacy_windowed tokens tokens max_window
  = Some (List.map Some (seq 0 (length tokens))).
Proof.
  intros Hmw Hraw. unfold align_aoi_to_spacy_windowed, align_fuel.
  destruct (self_loop tokens max_window (length tokens) tokens Hmw 0
              (replicate (length tokens) None))
    as (m' & -> & Hlen & _ & Hm).
  - intros k tok Hk. split; [exact Hk|].
    apply Hraw, list_elem_of_lookup. eauto.
  - rewrite length_replicate. lia.
  - cbn [st_mapping]. f_equal. apply list_eq. intros k.
    rewrite length_replicate in Hlen.
    destruct (Nat.lt_ge_cases k (length tokens)) as [Hlt|Hge].
    + rewrite Hm by lia.
      change (List.map Some (seq 0 (length tokens)))
        with (Some <$> seq 0 (length tokens)).
      rewrite list_lookup_fmap, lookup_seq_lt by lia. reflexivity.
    + rewrite (lookup_ge_None_2 m') by lia.
      symmetry. apply lookup_ge_None_2.
      rewrite List.length_map, length_seq. lia.
Qed.

Lemma align_self_identity_witness :
  (1 <= 4)%Z /\
  align_aoi_to_spacy_windowed ["Hello"; ","; "world"] ["Hello"; ","; "world"] 4
  = Some [Some 0; Some 1; Some 2]%nat.
Proof.
  split; [lia|].
  apply (align_self_identity ["Hello"; ","; "world"] 4); [lia|].
  intros tok Htok.
  apply list_elem_of_In in Htok. simpl in Htok.
  destruct Htok as [<-|[<-|[<-|[]]]]; discriminate.
Defined.

(** With a blank token in it, a sequence is not aligned with itself
    position by position: the blank is skipped without moving the cursor,
    and the next token is matched by a window that starts on the blank. *)
Example align_self_with_blank :
  align_aoi_to_spacy_windowed ["a"; " "; "b"] ["a"; " "; "b"] 4
  = Some [Some 0; None; Some 1]%nat.
Proof. reflexivity. Qed.

(** *** Later AOI tokens do not change earlier entries *)

Lemma align_step_length (doc_tokens : list string) (max_window : Z)
    (fuel : nat) (st st' : align_state) (i : nat) (aoi_tok : string) :
  align_step fuel doc_tokens max_window st i aoi_tok = Some st' ->
  length (st_mapping st') = length (st_mapping st).
Proof.
  intros [->|(p & _ & ->)]%align_step_sound; [reflexivity|].
  apply length_insert.
Qed.

Lemma align_step_pad (doc_tokens : list string) (max_window : Z)
    (fuel : nat) (m pad : list (option nat)) (j i : nat) (aoi_tok : string) :
  (i < length m)%nat ->
  align_step fuel doc_tokens max_window (AlignState (m ++ pad) j) i aoi_tok
  = match align_step fuel doc_tokens max_window (AlignState m j) i aoi_tok with
    | Some st' => Some (AlignState (st_mapping st' ++ pad) (st_j st'))
    | None => None
    end.
Proof.
  intros Hi. unfold align_step. destruct (branch_of aoi_tok); [| reflexivity |].
  - unfold punct_branch. cbn [st_j st_mapping].
    destruct (punct_scan _ _ _ _) as [j'|]; [|reflexivity].
    destruct (_ && _); cbn [st_j st_mapping]; [|reflexivity].
    rewrite insert_app_l by exact Hi. reflexivity.
  - unfold general_branch. cbn [st_j st_mapping].
    destruct (window_scan _ _ _ _ _ _) as [[[k w]|]|];
      cbn [st_j st_mapping]; [|reflexivity|reflexivity].
    rewrite insert_app_l by exact Hi. reflexivity.
Qed.

Lemma align_loop_pad (doc_tokens : list string) (max_window : Z)
    (fuel : nat) (pad : list (option nat)) (rest : list string) :
  forall (i : nat) (st : align_state),
    (i + length rest <= length (st_mapping st))%nat ->
    align_loop fuel doc_tokens max_window i rest
      (AlignState (st_mapping st ++ pad) (st_j st))
    = match align_loop fuel doc_tokens max_window i rest st with
      | Some st' => Some (AlignState (st_mapping st' ++ pad) (st_j st'))
      | None => None
      end.
Proof.
  induction rest as [|tok rest IH]; intros i st Hlen; cbn [align_loop length] in *.
  - reflexivity.
  - rewrite align_step_pad by lia. destruct st as [m j]. cbn [st_mapping st_j].
    destruct (align_step _ _ _ _ _ _) as [st1|] eqn:E; [|reflexivity].
    apply IH. rewrite (align_step_length _ _ _ _ _ _ _ E). cbn in *. lia.
Qed.

Lemma align_loop_keeps_prefix (doc_tokens : list string) (max_window : Z)
    (fuel n : nat) (rest : list string) :
  forall (i : nat) (st st' : align_state),
    (n <= i)%nat ->
    align_loop fuel doc_tokens max_window i rest st = Some st' ->
    take n (st_mapping st') = take n (st_mapping st).
Proof.
  induction rest as [|tok rest IH]; intros i st st' Hn; cbn [align_loop].
  - intros [= <-]. reflexivity.
  - destruct (align_step _ _ _ _ _ _) as [st1|] eqn:E; [|discriminate].
    intros H. rewrite (IH (S i) st1 st') by (lia || exact H).
    apply align_step_sound in E as [->|(p & _ & ->)]; [reflexivity|].
    apply take_insert_ge. exact Hn.
Qed.

Lemma align_loop_app (doc_tokens : list string) (max_window : Z)
    (fuel : nat) (a b : list string) :
  forall (i : nat) (st : align_state),
    align_loop fuel doc_tokens max_window i (a ++ b) st
    = match align_loop fuel doc_tokens max_window i a st with
      | Some st1 =>
          align_loop fuel doc_tokens max_window (i + length a) b st1
      | None => None
      end.
Proof.
  induction a as [|tok a IH]; intros i st; cbn [align_loop app length].
  - rewrite Nat.add_0_r. reflexivity.
  - destruct (align_step _ _ _ _ _ _) as [st1|]; [|reflexivity].
    rewrite IH. replace (S i + length a)%nat with (i + S (length a))%nat by lia.
    reflexivity.
Qed.

(** X12. The entries of the mapping for a prefix of the AOI sequence do
    not depend on the AOI tokens that follow: aligning [a ++ b] gives, on
    its first [len(a)] entries, the mapping of [a] alone. *)
Theorem align_prefix_stable
    (a b doc_tokens : list string) (max_window : Z) :
  exists ma mab,
    align_aoi_to_spacy_windowed a doc_tokens max_window = Some ma /\
    align_aoi_to_spacy_windowed (a ++ b) doc_tokens max_window = Some mab /\
    take (length a) mab = ma.
Proof.
  destruct (align_total a doc_tokens max_window) as (sta & Ha & _ & Hla).
  destruct (align_total (a ++ b) doc_tokens max_window) as (stab & Hab & _).
  exists (st_mapping sta), (st_mapping stab).
  unfold align_aoi_to_spacy_windowed, align_fuel. rewrite Ha, Hab.
  split; [reflexivity|]. split; [reflexivity|].
  rewrite length_app, replicate_add, align_loop_app in Hab.
  pose proof (align_loop_pad doc_tokens max_window (S (length doc_tokens))
                (replicate (length b) None) a 0
                (AlignState (replicate (length a) None) 0)) as Hpad.
  cbn [st_mapping st_j] in Hpad. rewrite Hpad in Hab
    by (rewrite length_replicate; lia).
  rewrite Ha in Hab.
  apply (align_loop_keeps_prefix _ _ _ (length a)) in Hab; [|lia].
  rewrite Hab. cbn [st_mapping]. apply take_app_length'. symmetry. exact Hla.
Qed.

(* ===================================================================== *)
(** * Further properties of the dependency metrics *)
(* ===================================================================== *)

(** X13. The dependency distance is never negative and never more than
    the distance between the token and its head; when some span contains
    the token it is less than the length of the token's span. *)
Theorem dep_distance_bounds (d : Doc) (i : Z) :
  (0 <= dep_distance d i <= Z.abs (i - doc_head d i))%Z /\
  forall s, Spec.sent_of (doc_sents d) i = Some s ->
            (dep_distance d i < span_end s - span_start s)%Z.
Proof.
  unfold dep_distance. rewrite scan_sents_spec. cbn [or_else].
  assert (Hor : forall x : option Span, or_else x None = x)
    by (intros [?|]; reflexivity).
  rewrite !Hor.
  assert (Hlen : forall s z, in_span s z = true ->
                             (span_start s <= z < span_end s)%Z).
  { intros s z [?%Z.leb_le ?%Z.ltb_lt]%andb_true_iff. lia. }
  destruct (Z.eqb_spec (doc_head d i) i) as [Heq|Hne].
  - split; [lia|]. intros s [_ Hs%Hlen]%sent_of_Some. lia.
  - destruct (opt_span_eqb_spec (Spec.sent_of (doc_sents d) i)
                (Spec.sent_of (doc_sents d) (doc_head d i))) as [He|Hd];
      cbn [negb].
    + split; [lia|]. intros s Hs. rewrite Hs in He. symmetry in He.
      apply sent_of_Some in Hs as [_ Hs%Hlen].
      apply sent_of_Some in He as [_ He%Hlen]. lia.
    + split; [lia|]. intros s [_ Hs%Hlen]%sent_of_Some. lia.
Qed.

Lemma depth_walk_ge (d : Doc) (token_sent : option Span) (fuel : nat) :
  forall current depth n,
    depth_walk fuel d token_sent current depth = Some n -> (depth <= n)%Z.
Proof.
  induction fuel as [|fuel IH]; intros current depth n; [discriminate|].
  cbn [depth_walk]. destruct (negb _); [|intros [= <-]; lia].
  destruct (span_truthy token_sent && _); [intros [= <-]; lia|].
  destruct (_ >? 50)%Z; [intros [= <-]; lia|].
  intros H%IH. lia.
Qed.

Lemma stays_in_span (token_sent : option Span) (z : Z) :
  (forall s, token_sent = Some s -> in_span s z = true) ->
  span_truthy token_sent
  && negb (match token_sent with
           | Some s => in_span s z
           | None => false
           end) = false.
Proof.
  intros H. destruct token_sent as [s|]; [|reflexivity].
  rewrite (H s eq_refl). apply andb_false_r.
Qed.

(** A walk that reaches a root after [n] steps, all inside the span. *)
Lemma depth_walk_to_root (d : Doc) (token_sent : option Span) (n : nat) :
  forall (fuel : nat) (current depth : Z),
    (n < fuel)%nat ->
    (depth + Z.of_nat n <= 51)%Z ->
    (forall m, (m < n)%nat ->
       doc_head d (iter_head d m current) <> iter_head d m current) ->
    doc_head d (iter_head d n current) = iter_head d n current ->
    (forall s m, token_sent = Some s -> (1 <= m <= n)%nat ->
       in_span s (iter_head d m current) = true) ->
    depth_walk fuel d token_sent current depth = Some (depth + Z.of_nat n)%Z.
Proof.
  induction n as [|n IH]; intros fuel current depth Hf Hd Hnot Hroot Hin;
    (destruct fuel as [|fuel]; [lia|]); cbn [depth_walk].
  - cbn in Hroot. apply Z.eqb_eq in Hroot. rewrite Hroot. cbn [negb].
    f_equal. lia.
  - pose proof (Hnot 0%nat (Nat.lt_0_succ _)) as H0. cbn in H0.
    apply Z.eqb_neq in H0. rewrite H0. cbn [negb].
    rewrite stays_in_span
      by (intros s Hs; apply (Hin s 1%nat Hs); lia).
    destruct (Z.gtb_spec (depth + 1) 50) as [Hgt|Hle].
    + f_equal. lia.
    + rewrite (IH fuel (doc_head d current) (depth + 1)%Z);
        [f_equal; lia|lia|lia| | |].
      * intros m Hm. rewrite !iter_head_shift. apply Hnot. lia.
      * rewrite !iter_head_shift. exact Hroot.
      * intros s m Hs Hm. rewrite iter_head_shift. apply (Hin s); [exact Hs|lia].
Qed.

(** X14. On a well-formed parse the depth is the number of steps to the
    root: when following the head [n] times (at most 50) from the token
    first reaches a token that is its own head, and all tokens on the way
    lie in the token's sentence span, [dep_depth] returns [n]; a root has
    depth 0. *)
Theorem dep_depth_steps_to_root (d : Doc) (i : Z) (n : nat) :
  (n <= 50)%nat ->
  (forall m, (m < n)%nat ->
     doc_head d (iter_head d m i) <> iter_head d m i) ->
  doc_head d (iter_head d n i) = iter_head d n i ->
  (forall s m, first_sent (doc_sents d) i = Some s -> (1 <= m <= n)%nat ->
     in_span s (iter_head d m i) = true) ->
  dep_depth d i = Some (Z.of_nat n).
Proof.
  intros Hn Hnot Hroot Hin. unfold dep_depth, dep_depth_fuel.
  rewrite (depth_walk_to_root d _ n 51 i 0); auto; lia.
Qed.

Lemma dep_depth_steps_to_root_witness :
  dep_depth (MkDoc (fun i => Z.max 0 (i - 1)) [MkSpan 0 5]) 3 = Some 3%Z.
Proof.
  apply (dep_depth_steps_to_root
           (MkDoc (fun i => Z.max 0 (i - 1)) [MkSpan 0 5]) 3 3).
  - lia.
  - intros [|[|[|m]]] Hm; simpl; lia.
  - reflexivity.
  - intros s [|[|[|[|m]]]] [= <-] Hm; try reflexivity; lia.
Defined.

Lemma depth_walk_shift (d : Doc) (token_sent : option Span) (fuel : nat) :
  forall current depth n,
    depth_walk fuel d token_sent current depth = Some n -> (n <= 50)%Z ->
    depth_walk fuel d token_sent current (depth + 1) = Some (n + 1)%Z.
Proof.
  induction fuel as [|fuel IH]; intros current depth n; [discriminate|].
  cbn [depth_walk]. destruct (negb _); [|intros [= <-]; reflexivity].
  destruct (span_truthy token_sent && _); [intros [= <-]; reflexivity|].
  destruct (Z.gtb_spec (depth + 1) 50) as [Hgt|Hle]; [intros [= <-]; lia|].
  intros H Hn. destruct (Z.gtb_spec (depth + 1 + 1) 50) as [Hgt2|Hle2].
  - apply depth_walk_ge in H. f_equal. lia.
  - apply IH; assumption.
Qed.

Lemma depth_walk_unfold (d : Doc) (token_sent : option Span) (fuel : nat)
    (current depth : Z) :
  depth_walk (S fuel) d token_sent current depth
  = if negb (doc_head d current =? current)%Z then
      if span_truthy token_sent
         && negb (match token_sent with
                  | Some s => in_span s (doc_head d current)
                  | None => false
                  end)
      then Some (depth + 1)%Z
      else if (depth + 1 >? 50)%Z then Some (depth + 1)%Z
      else depth_walk fuel d token_sent (doc_head d current) (depth + 1)
    else Some depth.
Proof. reflexivity. Qed.

(** X15. A token lies one level deeper than its head: when the head is
    another token in the same sentence span and has a depth of at most
    50, the depth of the token is that depth plus one. *)
Theorem dep_depth_head_plus_one (d : Doc) (i n : Z) :
  doc_head d i <> i ->
  first_sent (doc_sents d) (doc_head d i) = first_sent (doc_sents d) i ->
  dep_depth d (doc_head d i) = Some n ->
  (n <= 50)%Z ->
  dep_depth d i = Some (n + 1)%Z.
Proof.
  unfold dep_depth, dep_depth_fuel. intros Hne Hsent Hn Hle.
  rewrite Hsent in Hn. apply (depth_walk_shift _ _ _ _ _ _ Hn) in Hle.
  rewrite (depth_walk_unfold d _ 50).
  apply Z.eqb_neq in Hne. rewrite Hne. cbn [negb].
  rewrite stays_in_span.
  - change (0 + 1 >? 50)%Z with false.
    destruct (depth_walk_enough d (first_sent (doc_sents d) i) 50
                (doc_head d i) (0 + 1)%Z) as (n' & Hn' & _);
      [lia|simpl; lia|].
    rewrite Hn'. rewrite (depth_walk_fuel _ _ 50 51 _ _ _ Hn') in Hle by lia.
    exact Hle.
  - intros s Hs. rewrite Hs in Hsent.
    apply (first_sent_in_span _ _ _ Hsent).
Qed.

Lemma dep_depth_head_plus_one_witness :
  dep_depth (MkDoc (fun i => Z.max 0 (i - 1)) [MkSpan 0 5]) 2 = Some 2%Z /\
  dep_depth (MkDoc (fun i => Z.max 0 (i - 1)) [MkSpan 0 5]) 3 = Some (2 + 1)%Z.
Proof.
  split; [reflexivity|].
  apply (dep_depth_head_plus_one
           (MkDoc (fun i => Z.max 0 (i - 1)) [MkSpan 0 5]) 3 2).
  - simpl; lia.
  - reflexivity.
  - reflexivity.
  - lia.
Defined.

Lemma first_sent_Some (sents : list Span) (i : Z) (s : Span) :
  first_sent sents i = Some s -> s ∈ sents /\ in_span s i = true.
Proof.
  induction sents as [|sent rest IH]; cbn [first_sent]; [discriminate|].
  destruct (in_span sent i) eqn:E.
  - intros [= <-]. split; [left|exact E].
  - intros [? ?]%IH. split; [right|]; assumption.
Qed.

Lemma first_sent_None (sents : list Span) (i : Z) :
  first_sent sents i = None -> forall s, s ∈ sents -> in_span s i = false.
Proof.
  induction sents as [|sent rest IH]; cbn [first_sent].
  - intros _ s Hs. inversion Hs.
  - destruct (in_span sent i) eqn:E; [discriminate|].
    intros H s Hs. apply elem_of_cons in Hs as [->|Hs]; [exact E|auto].
Qed.

Lemma first_sent_is_sent_of (sents : list Span) (i : Z) :
  (forall s1 s2, s1 ∈ sents -> s2 ∈ sents ->
     in_span s1 i = true -> in_span s2 i = true -> s1 = s2) ->
  first_sent sents i = Spec.sent_of sents i.
Proof.
  intros Huniq. destruct (first_sent sents i) as [s|] eqn:E.
  - apply first_sent_Some in E as [Hs Hi]. symmetry.
    apply sent_of_unique; assumption.
  - symmetry. apply sent_of_None. apply first_sent_None. exact E.
Qed.

(** X16. [dep_depth] takes the first span of the document that contains
    the token, and [dep_distance] takes, for the token and for its head,
    the last one; when no position lies in two spans, as in a
    segmentation into sentences, the scan of [dep_distance] finds the
    spans that the scan of [dep_depth] finds. *)
Theorem sentence_scans_agree (sents : list Span) (ti hi : Z) :
  (forall s1 s2 z, s1 ∈ sents -> s2 ∈ sents ->
     in_span s1 z = true -> in_span s2 z = true -> s1 = s2) ->
  scan_sents sents ti hi None None = (first_sent sents ti, first_sent sents hi).
Proof.
  intros Huniq. rewrite scan_sents_spec.
  rewrite !first_sent_is_sent_of by (intros s1 s2; apply Huniq).
  destruct (Spec.sent_of sents ti), (Spec.sent_of sents hi); reflexivity.
Qed.

Lemma sentence_scans_agree_witness :
  scan_sents [MkSpan 0 3; MkSpan 3 5] 4 1 None None
  = (first_sent [MkSpan 0 3; MkSpan 3 5] 4,
     first_sent [MkSpan 0 3; MkSpan 3 5] 1).
Proof.
  apply (sentence_scans_agree [MkSpan 0 3; MkSpan 3 5] 4 1).
  intros s1 s2 z H1 H2.
  apply list_elem_of_In in H1. apply list_elem_of_In in H2.
  simpl in H1, H2. unfold in_span.
  destruct H1 as [<-|[<-|[]]]; destruct H2 as [<-|[<-|[]]];
    cbn [span_start span_end]; intros E1 E2; try reflexivity; exfalso;
    apply andb_true_iff in E1 as [?%Z.leb_le ?%Z.ltb_lt];
    apply andb_true_iff in E2 as [?%Z.leb_le ?%Z.ltb_lt]; lia.
Defined.

(** On overlapping spans the two scans differ. *)
Example sentence_scans_differ :
  first_sent [MkSpan 0 5; MkSpan 3 8] 4 = Some (MkSpan 0 5) /\
  scan_sents [MkSpan 0 5; MkSpan 3 8] 4 4 None None
  = (Some (MkSpan 3 8), Some (MkSpan 3 8)).
Proof. split; reflexivity. Qed.

Lemma depth_walk_capped (d : Doc) (token_sent : option Span) (n : nat) :
  forall (fuel : nat) (current depth : Z),
    (n < fuel)%nat ->
    (depth + Z.of_nat n = 50)%Z ->
    (forall m, (m <= n)%nat ->
       doc_head d (iter_head d m current) <> iter_head d m current) ->
    (forall s m, token_sent = Some s -> (1 <= m <= n)%nat ->
       in_span s (iter_head d m current) = true) ->
    depth_walk fuel d token_sent current depth = Some 51%Z.
Proof.
  induction n as [|n IH]; intros fuel current depth Hf Hd Hnot Hin;
    (destruct fuel as [|fuel]; [lia|]); cbn [depth_walk];
    pose proof (Hnot 0%nat (Nat.le_0_l _)) as H0; cbn in H0;
    apply Z.eqb_neq in H0; rewrite H0; cbn [negb].
  - replace depth with 50%Z by lia.
    destruct (span_truthy token_sent && _); reflexivity.
  - rewrite stays_in_span
      by (intros s Hs; apply (Hin s 1%nat Hs); lia).
    destruct (Z.gtb_spec (depth + 1) 50) as [Hgt|Hle]; [lia|].
    apply IH; [lia|lia| |].
    + intros m Hm. rewrite !iter_head_shift. apply Hnot. lia.
    + intros s m Hs Hm. rewrite iter_head_shift. apply (Hin s); [exact Hs|lia].
Qed.

(** X17. When the first 51 tokens of the head chain of a token hold no
    root, and the first 50 heads lie in the token's sentence span, as on
    cyclic head data, [dep_depth] returns exactly 51. *)
Theorem dep_depth_capped_at_51 (d : Doc) (i : Z) :
  (forall m, (m <= 50)%nat ->
     doc_head d (iter_head d m i) <> iter_head d m i) ->
  (forall s m, first_sent (doc_sents d) i = Some s -> (1 <= m <= 50)%nat ->
     in_span s (iter_head d m i) = true) ->
  dep_depth d i = Some 51%Z.
Proof.
  intros Hnot Hin. unfold dep_depth, dep_depth_fuel.
  apply (depth_walk_capped d _ 50 51 i 0); auto; lia.
Qed.

Lemma iter_head_flip (m : nat) :
  iter_head (MkDoc (fun i => (1 - i)%Z) [MkSpan 0 2]) m 0
  = if Nat.even m then 0%Z else 1%Z.
Proof.
  unfold iter_head. induction m as [|m IH]; [reflexivity|].
  rewrite Nat.iter_succ, IH, Nat.even_succ, <- Nat.negb_even.
  destruct (Nat.even m); reflexivity.
Qed.

Lemma dep_depth_capped_at_51_witness :
  dep_depth (MkDoc (fun i => (1 - i)%Z) [MkSpan 0 2]) 0 = Some 51%Z.
Proof.
  apply (dep_depth_capped_at_51 (MkDoc (fun i => (1 - i)%Z) [MkSpan 0 2]) 0).
  - intros m _. rewrite iter_head_flip. cbn [doc_head].
    destruct (Nat.even m); lia.
  - intros s m [= <-] _. rewrite iter_head_flip.
    destruct (Nat.even m); reflexivity.
Defined.

(* ===================================================================== *)
(** * Properties of the post-processing step *)
(* ===================================================================== *)

Module PostprocessFacts.
Import Postprocess.

Lemma predicate_true (r : Row) :
  predicate r = Some true <-> in_range r.
Proof.
  unfold predicate, in_range, ge, le, and_.
  destruct (total_reading_time r) as [v|].
  - split.
    + destruct (Z.leb_spec 150 v), (Z.leb_spec v 4000); try discriminate.
      intros _. exists v. split; [reflexivity|lia].
    + intros (v' & [= <-] & [H1%Z.leb_le H2%Z.leb_le]).
      rewrite H1, H2. reflexivity.
  - split; [discriminate|]. intros (v' & ? & _). discriminate.
Qed.

Lemma kept_iff (r : Row) :
  match predicate r with Some true => true | _ => false end = true
  <-> in_range r.
Proof.
  rewrite <- predicate_true.
  destruct (predicate r) as [[]|]; split; try discriminate; reflexivity.
Qed.


Lemma filter_in_range (df : DataFrame) :
  Forall in_range (rows (filter df)).
Proof.
  apply Forall_forall. intros r Hr%list_elem_of_In.
  apply filter_In in Hr as [_ Hr]. apply kept_iff. exact Hr.
Qed.

Lemma filter_sublist (df : DataFrame) :
  sublist (rows (filter df)) (rows df).
Proof.
  unfold filter. cbn [rows].
  induction (rows df) as [|r l IH]; cbn [List.filter]; [constructor|].
  destruct (match predicate r with Some true => true | _ => false end);
    constructor; exact IH.
Qed.

(** X18. Whenever [main] hands a frame to [write_csv], the file was read
    and has the column [total_reading_time]; the frame has the columns of
    the one read, its rows are rows of the one read in their order, each
    with a reading time between 150 and 4000 (bounds included), and every
    such row of the one read is among them (rows with a null are
    dropped); the exit code is 0 exactly when the write succeeds, and the
    counts then reported add up. *)
Theorem main_writes_filtered_frame
    (f : file) (write_succeeds : bool) (code : Z) (out : DataFrame)
    (rep : option (nat * nat * nat)) :
  main f write_succeeds = (code, MkEffects (Some out) rep) ->
  exists df,
    f = Csv df /\
    In "total_reading_time" (columns df) /\
    columns out = columns df /\
    sublist (rows out) (rows df) /\
    Forall in_range (rows out) /\
    (forall r, In r (rows df) -> in_range r -> In r (rows out)) /\
    (code = if write_succeeds then 0%Z else 1%Z) /\
    (write_succeeds = true ->
     rep = Some (height df, height out, (height df - height out)%nat) /\
     (height out <= height df)%nat).
Proof.
  unfold main. destruct f as [| |df]; [discriminate|discriminate|].
  destruct (existsb _ _) eqn:Ecol; cbn [negb]; [|discriminate].
  intros H. exists df.
  assert (Hout : out = filter df)
    by (destruct write_succeeds; injection H; congruence).
  subst out. split; [reflexivity|]. split.
  { apply existsb_exists in Ecol as (c & Hc & ->%String.eqb_eq). exact Hc. }
  split; [reflexivity|]. split; [apply filter_sublist|].
  split; [apply filter_in_range|]. split.
  { intros r Hr Hin. apply filter_In. split; [exact Hr|].
    apply kept_iff. exact Hin. }
  split; [destruct write_succeeds; injection H; congruence|].
  intros ->. split; [injection H; congruence|].
  unfold height. apply sublist_length, filter_sublist.
Qed.

Lemma main_writes_filtered_frame_witness :
  main (Csv (MkDataFrame ["content"; "total_reading_time"]
               [MkRow (Some 149%Z) ["a"]; MkRow (Some 150%Z) ["b"];
                MkRow None ["c"]; MkRow (Some 4000%Z) ["d"];
                MkRow (Some 4001%Z) ["e"]])) true
  = (0%Z,
     MkEffects
       (Some (MkDataFrame ["content"; "total_reading_time"]
                [MkRow (Some 150%Z) ["b"]; MkRow (Some 4000%Z) ["d"]]))
       (Some (5, 2, 3)%nat)) /\
  In "total_reading_time" ["content"; "total_reading_time"].
Proof.
  split; [reflexivity|].
  destruct (main_writes_filtered_frame
              (Csv (MkDataFrame ["content"; "total_reading_time"]
                      [MkRow (Some 149%Z) ["a"]; MkRow (Some 150%Z) ["b"];
                       MkRow None ["c"]; MkRow (Some 4000%Z) ["d"];
                       MkRow (Some 4001%Z) ["e"]])) true 0%Z
              (MkDataFrame ["content"; "total_reading_time"]
                 [MkRow (Some 150%Z) ["b"]; MkRow (Some 4000%Z) ["d"]])
              (Some (5, 2, 3)%nat) eq_refl)
    as (df & Hf & Hcol & _).
  injection Hf as <-. exact Hcol.
Defined.



End PostprocessFacts.
